(** * trigger-proxy: a shallow embedding of [app.go]

    The program maps (repository, branch) pairs to Jenkins job names through
    a semicolon-separated mapping file and triggers each job after a quiet
    period, restarting the period whenever the job is requested again.

    Go strings are byte sequences: they are [string] here.  Go maps are
    [gmap]s; indexing a map at a missing key yields the zero value.  Package
    level variables are fields of explicit records that the functions take
    and return. *)

From Stdlib Require Import ZArith Lia Ascii.
From stdpp Require Import gmap strings list fin_maps sorting.

Local Open Scope Z_scope.

(** ** The [strings] package *)

Module GoStrings.

(** [strings.Join(elems, sep)]: the empty string for no element, otherwise
    the first element followed by [sep ++ s] for every further element [s]
    (the library writes them into a builder in this order). *)
Definition Join (elems : list string) (sep : string) : string :=
  match elems with
  | [] => ""
  | e0 :: rest => fold_left (fun b s => b +:+ sep +:+ s) rest e0
  end.

(** Does the byte [c] occur in [s]? *)
Fixpoint has_byte (c : Ascii.ascii) (s : string) : bool :=
  match s with
  | EmptyString => false
  | String d s' => if Ascii.eqb d c then true else has_byte c s'
  end.

(** How often does the byte [c] occur in [s]? *)
Fixpoint count_byte (c : Ascii.ascii) (s : string) : nat :=
  match s with
  | EmptyString => 0
  | String d s' => (if Ascii.eqb d c then 1 else 0) + count_byte c s'
  end.

End GoStrings.

(** ** Mapping keys *)

Module Key.

Import GoStrings.

(** [BuildMappingKey]: the parts joined with the pipe character. *)
Definition BuildMappingKey (keys : list string) : string := Join keys "|".

(** A part is separator-free when the pipe byte does not occur in it. *)
Definition pipe_free (s : string) : Prop := has_byte "|"%char s = false.

End Key.

(** ** Panics and errors *)

(** A run-time panic of the Go program: indexing a slice of length [len] at
    [index], out of range. *)
Inductive panic : Type :=
  | IndexOutOfRange (index len : nat).

(** The outcome of a function that either returns or panics. *)
Inductive exec (A : Type) : Type :=
  | Done (a : A)
  | Panic (p : panic).
Arguments Done {A} a.
Arguments Panic {A} p.

#[global] Instance exec_ret : MRet exec := λ A a, Done a.
#[global] Instance exec_bind : MBind exec :=
  λ A B f x, match x with Done a => f a | Panic p => Panic p end.

(** Go error values: [errors.New(msg)], an error of the csv reader (a parse
    error or a wrong field count), or a failure of [os.Open]. *)
Inductive error : Type :=
  | errors_New (msg : string)
  | csv_ErrFieldCount
  | csv_ParseError (msg : string)
  | os_PathError (path : string).

(** [record[i]]: the element, or the index-out-of-range panic. *)
Definition index (record : list string) (i : nat) : exec string :=
  match record !! i with
  | Some s => Done s
  | None => Panic (IndexOutOfRange i (length record))
  end.

(** A Go [map[string][]string]; [None] is the nil map. *)
Abbreviation gomap := (option (gmap string (list string))).

(** [m[key]]: the stored slice, the empty slice when the key is absent or the
    map is nil. *)
Definition map_index (m : gomap) (key : string) : list string :=
  match m with
  | Some g => default [] (g !! key)
  | None => []
  end.

(** ** The mapping table *)

Module Mapping.

Import GoStrings Key.

(** What one call of [reader.Read()] yields before the end of the input:
    a record, or an error other than [io.EOF].  A source is the list of these
    results in order; after the last one the reader reports [io.EOF]. *)
Inductive read : Type :=
  | ReadRecord (record : list string)
  | ReadFail (err : error).

Record triggerMapping : Type := { mapping : gomap }.

Definition no_file_matching : error :=
  errors_New "no file matching information provided in mapping file".

(** The loop of [ParseMappingFile] over the results of [reader.Read()], with
    the table [m] built so far.  ([lineCount] only feeds a log line and is
    left out with the logging.) *)
Fixpoint parse_loop (filematch : bool) (reads : list read)
    (m : gmap string (list string)) : exec (triggerMapping * option error) :=
  match reads with
  | [] => Done ({| mapping := Some m |}, None)
  | ReadFail err :: _ => Done ({| mapping := None |}, Some err)
  | ReadRecord record :: rest =>
      if filematch && negb (length record =? 4)%nat then
        Done ({| mapping := None |}, Some no_file_matching)
      else
        key ← (if filematch then
                 r0 ← index record 0; r1 ← index record 1; r3 ← index record 3;
                 mret (BuildMappingKey [r0; r1; r3])
               else
                 r0 ← index record 0; r1 ← index record 1;
                 mret (BuildMappingKey [r0; r1]));
        job ← index record 2;
        parse_loop filematch rest (<[key := default [] (m !! key) ++ [job]]> m)
  end.

(** [ParseMappingFile(file, filematch)], on the results the csv reader yields
    for [file]. *)
Definition ParseMappingFile (reads : list read) (filematch : bool)
    : exec (triggerMapping * option error) :=
  parse_loop filematch reads ∅.

(** *** The csv reader on plain sources

    [encoding/csv] belongs to the Go library.  On a source without double
    quotes and carriage returns, with [Comma = ';'] and the other settings
    at their defaults, it reads one record per non-empty line, the fields
    being the pieces between semicolons, and reports [ErrFieldCount] for a
    record whose number of fields differs from the first record's. *)

Fixpoint split_on (c : ascii) (s : string) : list string :=
  match s with
  | EmptyString => [EmptyString]
  | String d s' =>
      if Ascii.eqb d c then EmptyString :: split_on c s'
      else match split_on c s' with
           | [] => [String d EmptyString]
           | f :: fs => String d f :: fs
           end
  end.

Definition plain_source (src : string) : bool :=
  negb (has_byte "034"%char src) && negb (has_byte "013"%char src).

(** The records of a plain source: the non-empty lines, split at semicolons. *)
Definition csv_records (src : string) : list (list string) :=
  map (split_on ";"%char)
      (filter (λ l, l ≠ EmptyString) (split_on "010"%char src)).

(** What [Read] yields for a record when the first record had [n] fields. *)
Definition csv_read (n : nat) (record : list string) : read :=
  if (length record =? n)%nat then ReadRecord record
  else ReadFail csv_ErrFieldCount.

Definition csv_reads (src : string) : option (list read) :=
  if plain_source src then
    match csv_records src with
    | [] => Some []
    | first :: rest => Some (map (csv_read (length first)) (first :: rest))
    end
  else None.

(** *** Reading a source row by row *)

(** The records of a source, in order. *)
Definition records_of (reads : list read) : list (list string) :=
  omap (λ r, match r with ReadRecord record => Some record | ReadFail _ => None end) reads.

(** The job names (third field) of the rows whose first two fields are
    [repo] and [branch], in the order of the rows. *)
Definition jobs_of_pair (repo branch : string) (rows : list (list string)) : list string :=
  omap (λ record,
          if decide (record !! 0%nat = Some repo ∧ record !! 1%nat = Some branch)
          then record !! 2%nat else None) rows.

(** The job names of the rows whose key, built from the first two fields, is
    [key]. *)
Definition jobs_of_key (key : string) (rows : list (list string)) : list string :=
  omap (λ record,
          match record with
          | r0 :: r1 :: job :: _ =>
              if decide (BuildMappingKey [r0; r1] = key) then Some job else None
          | _ => None
          end) rows.

(** What file-matching mode rejects: a record without exactly four fields,
    or an error of the reader. *)
Definition rejected (r : read) : Prop :=
  match r with
  | ReadRecord record => length record ≠ 4%nat
  | ReadFail _ => True
  end.

(** The spec's scenario source, and a source with two rows whose keys
    collide. *)
Definition nl : string := String "010"%char EmptyString.

Definition scenario_source : string :=
  "repoA;main;buildA" +:+ nl +:+ "repoA;dev;buildDev" +:+ nl +:+ "repoB;main;buildA".

Definition colliding_reads : list read :=
  [ReadRecord ["a|b"; "c"; "j1"]; ReadRecord ["a"; "b|c"; "j2"]].

(** A row's first field is separator-free. *)
Definition repo_pipe_free (record : list string) : Prop :=
  ∀ r0, record !! 0%nat = Some r0 → pipe_free r0.

(** *** Outcomes and file matching *)

(** The first result that is not a record of at least three fields. *)
Fixpoint first_bad (reads : list read) : option read :=
  match reads with
  | [] => None
  | ReadRecord record :: rest =>
      if (3 <=? length record)%nat then first_bad rest
      else Some (ReadRecord record)
  | ReadFail err :: _ => Some (ReadFail err)
  end.

(** The job names (third field) of the four-field rows whose first, second
    and fourth fields are [repo], [branch] and [file]. *)
Definition jobs_of_triple (repo branch file : string) (rows : list (list string))
    : list string :=
  omap (λ record,
          match record with
          | [r0; r1; job; r3] =>
              if decide (r0 = repo ∧ r1 = branch ∧ r3 = file) then Some job else None
          | _ => None
          end) rows.

(** The job names of the four-field rows whose key, built from the first,
    second and fourth fields, is [key]. *)
Definition jobs_of_key3 (key : string) (rows : list (list string)) : list string :=
  omap (λ record,
          match record with
          | [r0; r1; job; r3] =>
              if decide (BuildMappingKey [r0; r1; r3] = key) then Some job else None
          | _ => None
          end) rows.

(** A row's first two fields are separator-free. *)
Definition pair_pipe_free (record : list string) : Prop :=
  ∀ i r, (i < 2)%nat → record !! i = Some r → pipe_free r.

End Mapping.

(** ** Package-level variables *)

(** The variables of [var ( ... )] apart from [timeKeeper], which lives with
    the timers below.  [QuietPeriod] is a Go [int]. *)
Record globals : Type := {
  mapping : gomap;
  JenkinsURL : string;
  JenkinsUser : string;
  JenkinsToken : string;
  JenkinsMulti : string;
  MappingFile : string;
  QuietPeriod : Z;
  FileMatching : bool
}.

(** The values the variables have when [main] starts: [mapping] is made
    empty, every other variable has the zero value of its type. *)
Definition initial_globals : globals := {|
  mapping := Some ∅;
  JenkinsURL := "";
  JenkinsUser := "";
  JenkinsToken := "";
  JenkinsMulti := "";
  MappingFile := "";
  QuietPeriod := 0;
  FileMatching := false
|}.

(** ** The trigger dispatcher *)

Module Trigger.

(** An outbound request: its method, the URL it was created with, and the
    basic-auth credentials set on it, if any. *)
Record Request : Type := {
  Method : string;
  URL : string;
  BasicAuth : option (string * string)
}.

(** What [client.Do] yields: a response with its status code, or an error. *)
Inductive do_result : Type :=
  | Response (StatusCode : Z)
  | TransportError (err : error).

(** The lines [triggerJob] logs. *)
Inductive log_line : Type :=
  | LogError (err : error)
  | LogFailed (job : string) (StatusCode : Z)
  | LogTriggered (job : string).

Record outcome : Type := {
  returned : bool;
  sent : option Request;
  logged : list log_line
}.

Definition createJobURL (jenkinsURL job : string) : string :=
  jenkinsURL +:+ "/job/" +:+ job +:+ "/build".

Definition SetBasicAuth (req : Request) (username password : string) : Request :=
  {| Method := Method req; URL := URL req; BasicAuth := Some (username, password) |}.

Section Dispatch.

(** The two library calls [triggerJob] depends on: whether [http.NewRequest]
    accepts a URL string, and what the client answers to a request. *)
Variable validURL : string → bool.
Variable clientDo : Request → do_result.

Definition NewRequest (method url : string) : option Request :=
  if validURL url then Some {| Method := method; URL := url; BasicAuth := None |}
  else None.

(** [triggerJob(job)].  The request is created from [url] before the
    authentication branch; the branch without a user then assigns a new
    string to the local [url], which nothing reads afterwards.  Both
    branches of the status test only log. *)
Definition triggerJob (g : globals) (job : string) : outcome :=
  let url := createJobURL (JenkinsURL g) job in
  match NewRequest "POST" url with
  | None => {| returned := false; sent := None; logged := [] |}
  | Some req =>
      let '(req, url) :=
        if negb (String.eqb (JenkinsUser g) "")
        then (SetBasicAuth req (JenkinsUser g) (JenkinsToken g), url)
        else (req, url +:+ "?token=" +:+ JenkinsToken g) in
      match clientDo req with
      | TransportError err =>
          {| returned := false; sent := Some req; logged := [LogError err] |}
      | Response StatusCode =>
          let line :=
            if negb ((200 <=? StatusCode) && (StatusCode <=? 299))
            then LogFailed job StatusCode
            else LogTriggered job in
          {| returned := true; sent := Some req; logged := [line] |}
      end
  end.

End Dispatch.

(** A configuration without a user, for a server that accepts every URL. *)
Definition anonymous_globals : globals := {|
  mapping := Some ∅;
  JenkinsURL := "https://jenkins:8443";
  JenkinsUser := "";
  JenkinsToken := "secret";
  JenkinsMulti := "";
  MappingFile := "mapping.csv";
  QuietPeriod := 10;
  FileMatching := false
|}.

(** The same configuration with a user. *)
Definition user_globals : globals := {|
  mapping := Some ∅;
  JenkinsURL := "https://jenkins:8443";
  JenkinsUser := "triggeruser";
  JenkinsToken := "secret";
  JenkinsMulti := "";
  MappingFile := "mapping.csv";
  QuietPeriod := 10;
  FileMatching := false
|}.

End Trigger.

(** ** The debounce timer registry *)

Module Timer.

(** A timer created by [time.AfterFunc]: pending until it matures or is
    stopped, running while its callback executes, finished afterwards. *)
Inductive timer_status : Type := Pending | Running | Finished | Stopped.

#[global] Instance timer_status_eq_dec : EqDecision timer_status.
Proof. solve_decision. Defined.

Record timer : Type := {
  t_job : string;
  t_deadline : Z;
  t_status : timer_status
}.

(** The registry [timeKeeper] (job name to timer handle), the timers created
    so far (a handle is a position in this list), the clock in nanoseconds,
    and the calls of [triggerJob] made by callbacks, with their times. *)
Record state : Type := {
  timeKeeper : gmap string nat;
  timers : list timer;
  now : Z;
  fired : list (Z * string)
}.

Definition init (t0 : Z) : state :=
  {| timeKeeper := ∅; timers := []; now := t0; fired := [] |}.

(** [time.Second], and a 64-bit [time.Duration] product with its wrap-around. *)
Definition Second : Z := 1000000000.

Definition wrap64 (z : Z) : Z := (z + 2 ^ 63) `mod` 2 ^ 64 - 2 ^ 63.

(** [time.Second * time.Duration(QuietPeriod)] *)
Definition quiet_delay (QuietPeriod : Z) : Z := wrap64 (Second * QuietPeriod).

Definition set_status (id : nat) (st : timer_status) (s : state) : state :=
  match timers s !! id with
  | Some tm =>
      {| timeKeeper := timeKeeper s;
         timers := <[id := {| t_job := t_job tm; t_deadline := t_deadline tm;
                              t_status := st |}]> (timers s);
         now := now s; fired := fired s |}
  | None => s
  end.

(** [timer.Stop()]: a pending timer will not fire any more; a timer whose
    callback has started is not affected. *)
Definition Stop (id : nat) (s : state) : state :=
  match timers s !! id with
  | Some tm => if decide (t_status tm = Pending) then set_status id Stopped s else s
  | None => s
  end.

Definition set_timeKeeper (tk : gmap string nat) (s : state) : state :=
  {| timeKeeper := tk; timers := timers s; now := now s; fired := fired s |}.

(** [time.AfterFunc(d, callback for job)]: a new pending timer, due [d] after
    the current time; its handle is returned. *)
Definition AfterFunc (d : Z) (job : string) (s : state) : nat * state :=
  (length (timers s),
   {| timeKeeper := timeKeeper s;
      timers := timers s ++ [{| t_job := job; t_deadline := now s + d;
                                t_status := Pending |}];
      now := now s; fired := fired s |}).

(** [createTimer(job)] with the configured quiet period. *)
Definition createTimer (QuietPeriod : Z) (job : string) (s : state) : state :=
  let s :=
    match timeKeeper s !! job with
    | Some id => set_timeKeeper (delete job (timeKeeper s)) (Stop id s)
    | None => s
    end in
  let '(timer, s) := AfterFunc (quiet_delay QuietPeriod) job s in
  set_timeKeeper (<[job := timer]> (timeKeeper s)) s.

(** The callback of timer [id] starts once the timer is pending and due: it
    calls [triggerJob(job)], which takes time (up to the request's timeout). *)
Definition expire_begin (id : nat) (s : state) : option state :=
  match timers s !! id with
  | Some tm =>
      if decide (t_status tm = Pending) then
        if decide (t_deadline tm ≤ now s) then
          let s := set_status id Running s in
          Some {| timeKeeper := timeKeeper s; timers := timers s; now := now s;
                  fired := fired s ++ [(now s, t_job tm)] |}
        else None
      else None
  | None => None
  end.

(** The rest of the callback, after [triggerJob] has returned: the entry of
    the job is deleted if the registry has one. *)
Definition expire_end (id : nat) (s : state) : option state :=
  match timers s !! id with
  | Some tm =>
      if decide (t_status tm = Running) then
        let s :=
          match timeKeeper s !! t_job tm with
          | Some _ => set_timeKeeper (delete (t_job tm) (timeKeeper s)) s
          | None => s
          end in
        Some (set_status id Finished s)
      else None
  | None => None
  end.

(** *** Interleavings

    The request handler and the callbacks run concurrently; a schedule is a
    sequence of their steps, each taken atomically.  A step that cannot be
    taken in the current state ends the schedule with [None]. *)
Inductive event : Type :=
  | Arm (job : string)
  | Sleep (d : Z)
  | Expire (id : nat)
  | Cleanup (id : nat).

Definition step (QuietPeriod : Z) (e : event) (s : state) : option state :=
  match e with
  | Arm job => Some (createTimer QuietPeriod job s)
  | Sleep d =>
      if decide (0 ≤ d) then
        Some {| timeKeeper := timeKeeper s; timers := timers s;
                now := now s + d; fired := fired s |}
      else None
  | Expire id => expire_begin id s
  | Cleanup id => expire_end id s
  end.

Fixpoint run (QuietPeriod : Z) (es : list event) (s : state) : option state :=
  match es with
  | [] => Some s
  | e :: es =>
      match step QuietPeriod e s with
      | Some s' => run QuietPeriod es s'
      | None => None
      end
  end.

(** *** Prompt schedules

    When every callback runs as soon as its timer is due and finishes before
    anything else happens, time advances from one arm to the next, the due
    timers firing in between in the order of their deadlines. *)

#[global] Instance timer_eq_dec : EqDecision timer.
Proof. solve_decision. Defined.

Definition set_now (t : Z) (s : state) : state :=
  {| timeKeeper := timeKeeper s; timers := timers s; now := t; fired := fired s |}.

(** The whole callback of timer [id], run at its deadline (or now, if the
    deadline has passed); nothing happens unless the timer is pending. *)
Definition fire (id : nat) (s : state) : state :=
  match timers s !! id with
  | Some tm =>
      let s1 := set_now (Z.max (now s) (t_deadline tm)) s in
      match expire_begin id s1 with
      | Some s2 => default s2 (expire_end id s2)
      | None => s
      end
  | None => s
  end.

(** The pending timers among [tms] (handles counted from [i]) due by [T]. *)
Fixpoint due_from (T : Z) (i : nat) (tms : list timer) : list (nat * timer) :=
  match tms with
  | [] => []
  | tm :: tms =>
      if decide (t_status tm = Pending ∧ t_deadline tm ≤ T)
      then (i, tm) :: due_from T (S i) tms
      else due_from T (S i) tms
  end.

Definition earlier (p q : nat * timer) : Prop := t_deadline p.2 ≤ t_deadline q.2.

#[global] Instance earlier_dec : RelDecision earlier.
Proof. intros p q. unfold earlier. apply _. Defined.

(** The handles of the timers due by [T], by increasing deadline. *)
Definition fire_order (T : Z) (s : state) : list nat :=
  (merge_sort earlier (due_from T 0 (timers s))).*1.

(** Time passes until [T]. *)
Definition advance_to (T : Z) (s : state) : state :=
  let s' := fold_left (λ s id, fire id s) (fire_order T s) s in
  set_now (Z.max (now s') T) s'.

(** Requests for jobs arrive at the given times, in order. *)
Definition run_arms (QuietPeriod : Z) (arms : list (Z * string)) (s : state) : state :=
  fold_left (λ s arm, createTimer QuietPeriod arm.2 (advance_to arm.1 s)) arms s.

(** The calls of [triggerJob] for [job] so far. *)
Definition fires_of (job : string) (s : state) : list (Z * string) :=
  filter (λ p, p.2 = job) (fired s).

(** No timer of [job] is pending and no callback for [job] is under way. *)
Definition idle (job : string) (s : state) : Prop :=
  ∀ id tm, timers s !! id = Some tm → t_job tm = job →
           t_status tm ≠ Pending ∧ t_status tm ≠ Running.

Definition finished (tm : timer) : timer :=
  {| t_job := t_job tm; t_deadline := t_deadline tm; t_status := Finished |}.

(** *** A schedule with a race *)

(** A schedule in which job J is armed again while the callback of its first
    timer is still dispatching. *)
Definition race_schedule : list event :=
  [Arm "J"; Sleep (quiet_delay 10); Expire 0%nat; Arm "J"].

Definition race_state : state := default (init 0) (run 10 race_schedule (init 0)).

(** *** One job among the others *)

(** Timer [id] is a pending timer of job [J]. *)
Definition J_pending (J : string) (id : nat) (s : state) : Prop :=
  ∃ tm, timers s !! id = Some tm ∧ t_job tm = J ∧ t_status tm = Pending.

(** [s'] has the timers of [J], the entry of [J] and the fires of [J] that
    [s] has. *)
Record J_same (J : string) (s s' : state) : Prop := {
  Js_back : ∀ id tm, t_job tm = J → timers s' !! id = Some tm → timers s !! id = Some tm;
  Js_forth : ∀ id tm, t_job tm = J → timers s !! id = Some tm → timers s' !! id = Some tm;
  Js_entry : timeKeeper s' !! J = timeKeeper s !! J;
  Js_fires : fires_of J s' = fires_of J s;
  Js_length : length (timers s') = length (timers s)
}.

(** Timer [n], due at [D], is the one pending timer of [J], and it is the
    registered one. *)
Definition armed (J : string) (n : nat) (D : Z) (s : state) : Prop :=
  timers s !! n = Some {| t_job := J; t_deadline := D; t_status := Pending |} ∧
  (∀ id, J_pending J id s → id = n) ∧
  timeKeeper s !! J = Some n.

(** Every pending timer of [J] is the registered one. *)
Definition tracked (J : string) (s : state) : Prop :=
  ∀ id, J_pending J id s → timeKeeper s !! J = Some id.

(** *** Streams of arms and invariants of the registry *)

(** Arms of one job at the given times. *)
Definition arms_of (job : string) (ts : list Z) : list (Z * string) :=
  map (λ t, (t, job)) ts.

(** Each time of [ts] follows the one before it, [t] at first, by less than
    [d]. *)
Fixpoint within (d t : Z) (ts : list Z) : Prop :=
  match ts with
  | [] => True
  | t' :: ts => t ≤ t' < t + d ∧ within d t' ts
  end.

(** Every entry of the registry names a timer of its job that is pending or
    whose callback is running. *)
Definition registered_live (s : state) : Prop :=
  ∀ job id, timeKeeper s !! job = Some id →
    ∃ tm, timers s !! id = Some tm ∧ t_job tm = job ∧
          (t_status tm = Pending ∨ t_status tm = Running).

(** The callback of the timer has started. *)
Definition started (tm : timer) : bool :=
  match t_status tm with
  | Running | Finished => true
  | Pending | Stopped => false
  end.

Fixpoint started_count (tms : list timer) : nat :=
  match tms with
  | [] => 0
  | tm :: tms => (if started tm then 1 else 0) + started_count tms
  end.

(** Every call of [triggerJob] so far is backed by a timer of that job whose
    callback has started and whose deadline had passed at the call, and
    there are as many calls as started timers. *)
Definition fires_backed (s : state) : Prop :=
  length (fired s) = started_count (timers s) ∧
  ∀ t job, (t, job) ∈ fired s →
    ∃ id tm, timers s !! id = Some tm ∧ t_job tm = job ∧
             t_deadline tm ≤ t ∧ started tm = true.

Definition with_status (st : timer_status) (tm : timer) : timer :=
  {| t_job := t_job tm; t_deadline := t_deadline tm; t_status := st |}.

(** The registry holds for [job] a pending timer due at [D]. *)
Definition pending_at (job : string) (D : Z) (s : state) : Prop :=
  ∃ id, timeKeeper s !! job = Some id ∧
        timers s !! id = Some {| t_job := job; t_deadline := D; t_status := Pending |}.

End Timer.

(** ** The program: loading, the request handler, [run] and [main] *)

Module App.

Import Key.

(** What the process finds when it starts: its argument vector, its
    environment, and for each path the results the csv reader yields on the
    file there ([None] when [os.Open] fails). *)
Record world : Type := {
  Args : list string;
  Environ : list (string * string);
  Files : string → option (list Mapping.read)
}.

(** The calls by which [run] reaches outside the process. *)
Inductive effect : Type :=
  | EffOpen (path : string)
  | EffHandleFunc (pattern : string)
  | EffListenAndServe (addr : string).

(** How [main] ends: [log.Fatalf] prints the error and exits with status 1
    ([exitFail]), or [main] returns. *)
Inductive exit : Type :=
  | Fatal (err : error) (status : Z)
  | Returns.

Definition exitFail : Z := 1.

Definition set_mapping (m : gomap) (g : globals) : globals :=
  {| mapping := m; JenkinsURL := JenkinsURL g; JenkinsUser := JenkinsUser g;
     JenkinsToken := JenkinsToken g; JenkinsMulti := JenkinsMulti g;
     MappingFile := MappingFile g; QuietPeriod := QuietPeriod g;
     FileMatching := FileMatching g |}.

Definition set_JenkinsURL (url : string) (g : globals) : globals :=
  {| mapping := mapping g; JenkinsURL := url; JenkinsUser := JenkinsUser g;
     JenkinsToken := JenkinsToken g; JenkinsMulti := JenkinsMulti g;
     MappingFile := MappingFile g; QuietPeriod := QuietPeriod g;
     FileMatching := FileMatching g |}.

(** [ProcessMappingFile(mappingfile)].  [err] is the result of [os.Open]; it
    is nil once the file is open, and it is [err], not [perr], that is
    returned when parsing fails. *)
Definition ProcessMappingFile (w : world) (g : globals) (mappingfile : string)
    : exec (globals * option error) :=
  match Files w mappingfile with
  | None => Done (g, Some (os_PathError mappingfile))
  | Some file =>
      let err : option error := None in
      '(tm, perr) ← Mapping.ParseMappingFile file (FileMatching g);
      match perr with
      | Some _ => Done (g, err)
      | None => Done (set_mapping (Mapping.mapping tm) g, None)
      end
  end.

(** [ParseGetRequest(r)], on the query parameters of [r]. *)
Definition ParseGetRequest (query : gmap string (list string))
    : string * string * list string * option error :=
  match query !! "repo" with
  | Some (repo :: _) =>
      let branch :=
        match query !! "branch" with
        | Some (branch :: _) => branch
        | _ => "master"
        end in
      (repo, branch, [], None)
  | _ => ("", "", [], Some (errors_New "repo is missing"))
  end.

(** [handler(w, r)]: every job mapped to the request's repository and branch
    is armed. *)
Definition handler (g : globals) (query : gmap string (list string))
    (s : Timer.state) : Timer.state :=
  match ParseGetRequest query with
  | (_, _, _, Some _) => s
  | (repo, branch, files, None) =>
      let key := BuildMappingKey [repo; branch] in
      if (length (map_index (mapping g) key) =? 0)%nat then s
      else fold_left (λ s job, Timer.createTimer (QuietPeriod g) job s)
             (map_index (mapping g) key) s
  end.

(** [run(args, stdout)]: neither argument is used.  [ListenAndServe] blocks
    while the server runs; what it returns is dropped. *)
Definition run (args : list string) (w : world) (g : globals)
    : exec (globals * list effect * option error) :=
  if String.eqb (JenkinsURL g) "" then
    Done (g, [], Some (errors_New "No JENKINS_URL defined"))
  else if String.eqb (JenkinsToken g) "" then
    Done (g, [], Some (errors_New "No JENKINS_TOKEN defined"))
  else
    let g :=
      if negb (String.eqb (JenkinsMulti g) "")
      then set_JenkinsURL (JenkinsURL g +:+ "/job/" +:+ JenkinsMulti g) g
      else g in
    '(g', err) ← ProcessMappingFile w g (MappingFile g);
    match err with
    | Some err => Done (g', [EffOpen (MappingFile g)], Some err)
    | None =>
        Done (g', [EffOpen (MappingFile g); EffHandleFunc "/";
                   EffListenAndServe ":8080"], None)
    end.

(** [main()]: [run] on the argument vector, from the variables as they are;
    [parseFlags] is not called. *)
Definition main (w : world) (g : globals) : exec (globals * list effect * exit) :=
  '(g', effects, err) ← run (Args w) w g;
  match err with
  | Some err => Done (g', effects, Fatal err exitFail)
  | None => Done (g', effects, Returns)
  end.

(** The process from its start. *)
Definition program (w : world) : exec (globals * list effect * exit) :=
  main w initial_globals.

(** A mapping file whose second row has fewer fields than the first: the
    csv reader reports the wrong field count. *)
Definition ragged_source : string :=
  "repoA;main;buildA" +:+ Mapping.nl +:+ "repoA;dev".

Definition ragged_file : list Mapping.read :=
  [Mapping.ReadRecord ["repoA"; "main"; "buildA"]; Mapping.ReadFail csv_ErrFieldCount].

Definition ragged_world : world := {|
  Args := ["./app"];
  Environ := [];
  Files := λ path, if String.eqb path "mapping.csv" then Some ragged_file else None
|}.

(** A world whose mapping file is the scenario source. *)
Definition scenario_world : world := {|
  Args := ["./app"];
  Environ := [];
  Files := λ path,
    if String.eqb path "mapping.csv" then Mapping.csv_reads Mapping.scenario_source
    else None
|}.

(** A world without files. *)
Definition empty_world : world := {|
  Args := ["./app"];
  Environ := [];
  Files := λ _, None
|}.

(** The configuration of the README: a multibranch project and a user. *)
Definition multibranch_globals : globals := {|
  mapping := Some ∅;
  JenkinsURL := "https://jenkins:8443";
  JenkinsUser := "triggeruser";
  JenkinsToken := "token";
  JenkinsMulti := "builds";
  MappingFile := "mapping.csv";
  QuietPeriod := 10;
  FileMatching := false
|}.

(** File-matching mode, with a mapping file of one four-field row. *)
Definition filematch_globals : globals := {|
  mapping := Some ∅;
  JenkinsURL := "https://jenkins:8443";
  JenkinsUser := "";
  JenkinsToken := "secret";
  JenkinsMulti := "";
  MappingFile := "mapping.csv";
  QuietPeriod := 10;
  FileMatching := true
|}.

Definition filematch_world : world := {|
  Args := ["./app"];
  Environ := [];
  Files := λ path,
    if String.eqb path "mapping.csv"
    then Some [Mapping.ReadRecord ["repoA"; "main"; "buildA"; "src"]]
    else None
|}.

End App.

(** * Properties *)

(** ** String concatenation and [Join] *)

Module StringFacts.
Import GoStrings.

(** The two equations of string concatenation (the library keeps [simpl]
    from unfolding it). *)
Lemma append_nil (b : string) : "" +:+ b = b.
Proof. reflexivity. Qed.

Lemma append_cons (x : Ascii.ascii) (a b : string) :
  String x a +:+ b = String x (a +:+ b).
Proof. reflexivity. Qed.

Lemma app_assoc' (a b c : string) : (a +:+ b) +:+ c = a +:+ (b +:+ c).
Proof.
  induction a as [|x a IH]; [done |].
  by rewrite !append_cons, IH.
Qed.

Lemma fold_join_shift (sep : string) (rest : list string) (p e0 : string) :
  fold_left (fun b s => b +:+ sep +:+ s) rest (p +:+ e0)
  = p +:+ fold_left (fun b s => b +:+ sep +:+ s) rest e0.
Proof.
  revert e0. induction rest as [|s rest IH]; intros e0; simpl; [done |].
  by rewrite <- IH, app_assoc'.
Qed.

(** The recursive reading of [Join] on two or more elements. *)
Lemma Join_cons (e0 e1 : string) (rest : list string) (sep : string) :
  Join (e0 :: e1 :: rest) sep = e0 +:+ sep +:+ Join (e1 :: rest) sep.
Proof.
  unfold Join. simpl fold_left at 1.
  rewrite <- app_assoc'. rewrite (fold_join_shift sep rest (e0 +:+ sep) e1).
  by rewrite app_assoc'.
Qed.

(** A separator byte splits a string at its first occurrence: two
    separator-free heads followed by the separator agree as soon as the
    whole strings do. *)
Lemma split_at_byte (c : Ascii.ascii) (a a' b b' : string) :
  has_byte c a = false → has_byte c a' = false →
  a +:+ String c b = a' +:+ String c b' → a = a' ∧ b = b'.
Proof.
  revert a'. induction a as [|x a IH]; intros [|x' a'] Ha Ha' E;
    rewrite ?append_nil, ?append_cons in E; simpl in *.
  - by injection E as ->.
  - injection E as <- _. by rewrite Ascii.eqb_refl in Ha'.
  - injection E as -> _. by rewrite Ascii.eqb_refl in Ha.
  - injection E as -> E.
    destruct (Ascii.eqb x' c); [done |].
    destruct (IH a' Ha Ha' E) as [-> ->]. done.
Qed.

Lemma count_byte_append (c : Ascii.ascii) (a b : string) :
  count_byte c (a +:+ b) = (count_byte c a + count_byte c b)%nat.
Proof.
  induction a as [|x a IH]; [done |].
  rewrite append_cons. simpl. rewrite IH. lia.
Qed.

Lemma count_byte_absent (c : Ascii.ascii) (s : string) :
  has_byte c s = false → count_byte c s = 0%nat.
Proof.
  induction s as [|x s IH]; simpl; [done |].
  destruct (Ascii.eqb x c); [done |]. intros H. by rewrite IH.
Qed.

End StringFacts.

(** ** Keys *)

Module KeyFacts.
Import GoStrings StringFacts Key.

Lemma BuildMappingKey_cons (k0 k1 : string) (ks : list string) :
  BuildMappingKey (k0 :: k1 :: ks) = k0 +:+ String "|"%char (BuildMappingKey (k1 :: ks)).
Proof. unfold BuildMappingKey. by rewrite Join_cons. Qed.

(** Keys of equally long tuples agree only on equal tuples, as soon as every
    part but the last is separator-free. *)
Lemma BuildMappingKey_inj_init (l1 l2 : list string) :
  length l1 = length l2 →
  Forall pipe_free (removelast l1) → Forall pipe_free (removelast l2) →
  BuildMappingKey l1 = BuildMappingKey l2 → l1 = l2.
Proof.
  revert l2. induction l1 as [|a l1 IH]; intros [|b l2] Hlen H1 H2 E;
    simpl in Hlen; try discriminate; [done |].
  destruct l1 as [|a' l1], l2 as [|b' l2]; simpl in Hlen; try discriminate.
  - by simplify_eq/=.
  - rewrite !BuildMappingKey_cons in E.
    change (removelast (a :: a' :: l1)) with (a :: removelast (a' :: l1)) in H1.
    change (removelast (b :: b' :: l2)) with (b :: removelast (b' :: l2)) in H2.
    apply Forall_cons in H1 as [Ha H1]. apply Forall_cons in H2 as [Hb H2].
    destruct (split_at_byte _ _ _ _ _ Ha Hb E) as [-> E'].
    f_equal. apply IH; [simpl; lia | done | done | done].
Qed.

Lemma Forall_removelast {A} (P : A → Prop) (l : list A) :
  Forall P l → Forall P (removelast l).
Proof.
  induction 1 as [|x l Hx Hl IH]; [constructor |].
  destruct l; [constructor | simpl; constructor; [done | exact IH]].
Qed.

(** C8. [BuildMappingKey] joins its parts with the pipe character:
    the key of [a; b] is [a|b], the key of [a; b; c] is [a|b|c], and two
    tuples of the same length whose parts contain no pipe have equal keys
    only if they are equal. *)
Theorem BuildMappingKey_pipe_join_injective :
  BuildMappingKey ["a"; "b"] = "a|b" ∧
  BuildMappingKey ["a"; "b"; "c"] = "a|b|c" ∧
  ∀ l1 l2 : list string,
    length l1 = length l2 →
    Forall pipe_free l1 → Forall pipe_free l2 →
    BuildMappingKey l1 = BuildMappingKey l2 → l1 = l2.
Proof.
  split; [reflexivity |]. split; [reflexivity |].
  intros l1 l2 Hlen H1 H2 E.
  apply BuildMappingKey_inj_init; auto using Forall_removelast.
Qed.

(** The injectivity part of C8 at the tuples (repoA, main) and (repoA, main). *)
Lemma BuildMappingKey_pipe_join_injective_witness :
  BuildMappingKey ["repoA"; "main"] = "repoA|main" ∧
  ["repoA"; "main"] = ["repoA"; "main"].
Proof.
  split; [reflexivity |].
  apply (proj2 (proj2 BuildMappingKey_pipe_join_injective)
           ["repoA"; "main"] ["repoA"; "main"]).
  - reflexivity.
  - repeat constructor.
  - repeat constructor.
  - reflexivity.
Defined.

(** A key of separator-free parts has one pipe less than it has parts. *)
Lemma count_pipes_key (l : list string) :
  Forall pipe_free l →
  count_byte "|"%char (BuildMappingKey l) = Nat.pred (length l).
Proof.
  induction 1 as [|a l Ha Hl IH]; [done |].
  destruct l as [|b l].
  - by apply count_byte_absent.
  - rewrite BuildMappingKey_cons, count_byte_append.
    rewrite (count_byte_absent _ _ Ha).
    change (count_byte "|"%char (String "|"%char (BuildMappingKey (b :: l))))
      with (S (count_byte "|"%char (BuildMappingKey (b :: l)))).
    rewrite IH. simpl. lia.
Qed.

(** Among the non-empty tuples of separator-free parts the key is injective
    whatever the lengths: equal keys come from equal tuples.  The empty tuple
    is the one exception: its key is the key of the tuple holding one empty
    string. *)
Theorem BuildMappingKey_injective_any_length :
  (∀ l1 l2 : list string,
     l1 ≠ [] → l2 ≠ [] → Forall pipe_free l1 → Forall pipe_free l2 →
     BuildMappingKey l1 = BuildMappingKey l2 → l1 = l2) ∧
  BuildMappingKey [] = BuildMappingKey [""].
Proof.
  split; [| reflexivity].
  intros l1 l2 Hn1 Hn2 H1 H2 E.
  apply BuildMappingKey_inj_init; auto using Forall_removelast.
  pose proof (count_pipes_key l1 H1) as C1.
  pose proof (count_pipes_key l2 H2) as C2.
  rewrite E in C1. destruct l1, l2; simpl in *; try done. lia.
Qed.

Lemma BuildMappingKey_injective_any_length_witness :
  BuildMappingKey ["repoA"; "main"] ≠ BuildMappingKey ["repoA"; "main"; "src"].
Proof.
  intros E.
  apply (proj1 BuildMappingKey_injective_any_length) in E;
    [discriminate | done | done | repeat constructor | repeat constructor].
Defined.

End KeyFacts.

#[global] Arguments Key.BuildMappingKey : simpl never.

(** ** Loading and looking up *)

Module MappingFacts.
Import GoStrings Key KeyFacts Mapping.

(** *** The loop without file matching *)

Lemma jobs_of_key_cons (key : string) (record : list string)
    (rows : list (list string)) :
  jobs_of_key key (record :: rows)
  = match record with
    | r0 :: r1 :: job :: _ =>
        if decide (BuildMappingKey [r0; r1] = key)
        then job :: jobs_of_key key rows else jobs_of_key key rows
    | _ => jobs_of_key key rows
    end.
Proof.
  destruct record as [|r0 [|r1 [|job more]]]; try reflexivity.
  unfold jobs_of_key. simpl. by case_decide.
Qed.

Lemma jobs_of_pair_cons (repo branch : string) (record : list string)
    (rows : list (list string)) :
  jobs_of_pair repo branch (record :: rows)
  = match record with
    | r0 :: r1 :: job :: _ =>
        if decide (r0 = repo ∧ r1 = branch)
        then job :: jobs_of_pair repo branch rows
        else jobs_of_pair repo branch rows
    | _ => jobs_of_pair repo branch rows
    end.
Proof.
  unfold jobs_of_pair.
  destruct record as [|r0 [|r1 [|job more]]]; cbn [omap list_omap].
  - by rewrite decide_False by (by intros [? ?]).
  - by rewrite decide_False by (by intros [? ?]).
  - by case_decide.
  - destruct (decide (r0 = repo ∧ r1 = branch)) as [[-> ->] | NE].
    + by rewrite decide_True.
    + rewrite decide_False; [done |]. intros [[= ->] [= ->]]. by apply NE.
Qed.

Lemma parse_loop_plain (reads : list read) (m : gmap string (list string))
    (tm : triggerMapping) :
  parse_loop false reads m = Done (tm, None) →
  ∃ m', Mapping.mapping tm = Some m' ∧
    ∀ key, default [] (m' !! key)
           = default [] (m !! key) ++ jobs_of_key key (records_of reads).
Proof.
  revert m. induction reads as [|r reads IH]; intros m E; simpl in E.
  - injection E as <-. exists m. split; [done |].
    intros key. by rewrite app_nil_r.
  - destruct r as [record | err]; [| discriminate].
    destruct record as [|r0 [|r1 [|job more]]]; try discriminate.
    simpl in E. apply IH in E as (m' & Hm' & Hlook).
    exists m'. split; [done |]. intros key.
    rewrite Hlook. simpl records_of. rewrite jobs_of_key_cons.
    case_decide as Hk.
    + subst key. rewrite lookup_insert_eq. simpl. by rewrite <- app_assoc.
    + by rewrite lookup_insert_ne.
Qed.

Lemma jobs_of_key_pair (repo branch : string) (rows : list (list string)) :
  pipe_free repo → Forall repo_pipe_free rows →
  jobs_of_key (BuildMappingKey [repo; branch]) rows = jobs_of_pair repo branch rows.
Proof.
  intros Hrepo. induction 1 as [|record rows Hrec _ IH]; [done |].
  rewrite jobs_of_key_cons, jobs_of_pair_cons, IH.
  destruct record as [|r0 [|r1 [|job more]]]; try done.
  destruct (decide (BuildMappingKey [r0; r1] = BuildMappingKey [repo; branch]))
    as [E | NE].
  - apply BuildMappingKey_inj_init in E;
      [| done | repeat constructor; by apply Hrec | by repeat constructor].
    injection E as -> ->. by rewrite decide_True.
  - rewrite decide_False; [done |]. intros [-> ->]. done.
Qed.

Lemma jobs_of_pair_no_match (repo branch : string) (rows : list (list string)) :
  (∀ record, record ∈ rows →
     ¬ (record !! 0%nat = Some repo ∧ record !! 1%nat = Some branch)) →
  jobs_of_pair repo branch rows = [].
Proof.
  induction rows as [|record rows IH]; intros Hno; [done |].
  rewrite jobs_of_pair_cons, IH by (intros r Hr; apply Hno; by right).
  destruct record as [|r0 [|r1 [|job more]]]; try done.
  rewrite decide_False; [done |].
  intros [-> ->]. by apply (Hno (repo :: branch :: job :: more)); [left |].
Qed.

(** C6 (amended). In non-file-matching mode, when the source loads and neither
    the looked-up repository nor the repository field of any row contains the
    pipe character, looking up the key of (repository, branch) returns exactly
    the third fields of the rows whose first two fields are that pair, in
    source order with duplicates kept, and the empty list when no row
    matches the pair. *)
Theorem ParseMappingFile_lookup_pair (reads : list read) (tm : triggerMapping)
    (repo branch : string) :
  ParseMappingFile reads false = Done (tm, None) →
  pipe_free repo →
  Forall repo_pipe_free (records_of reads) →
  map_index (Mapping.mapping tm) (BuildMappingKey [repo; branch])
  = jobs_of_pair repo branch (records_of reads) ∧
  ((∀ record, record ∈ records_of reads →
      ¬ (record !! 0%nat = Some repo ∧ record !! 1%nat = Some branch)) →
   map_index (Mapping.mapping tm) (BuildMappingKey [repo; branch]) = []).
Proof.
  intros E Hrepo Hrows.
  apply parse_loop_plain in E as (m' & -> & Hlook).
  assert (map_index (Some m') (BuildMappingKey [repo; branch])
          = jobs_of_pair repo branch (records_of reads)) as Hjobs.
  { simpl. rewrite Hlook, lookup_empty. simpl. by apply jobs_of_key_pair. }
  split; [exact Hjobs |].
  intros Hno. rewrite Hjobs. by apply jobs_of_pair_no_match.
Qed.

(** The spec's scenario: the three-row source, looked up at (repoA, main). *)
Lemma ParseMappingFile_lookup_pair_witness :
  ∃ reads tm,
    csv_reads scenario_source = Some reads ∧
    ParseMappingFile reads false = Done (tm, None) ∧
    map_index (Mapping.mapping tm) (BuildMappingKey ["repoA"; "main"]) = ["buildA"].
Proof.
  exists [ReadRecord ["repoA"; "main"; "buildA"];
          ReadRecord ["repoA"; "dev"; "buildDev"];
          ReadRecord ["repoB"; "main"; "buildA"]].
  eexists. split; [reflexivity |]. split; [reflexivity |].
  apply (ParseMappingFile_lookup_pair
           [ReadRecord ["repoA"; "main"; "buildA"];
            ReadRecord ["repoA"; "dev"; "buildDev"];
            ReadRecord ["repoB"; "main"; "buildA"]] _ "repoA" "main").
  - reflexivity.
  - reflexivity.
  - repeat constructor; intros r0 [= <-]; reflexivity.
Defined.

(** All four lookups of the spec's scenario. *)
Lemma scenario_lookups :
  ∃ reads tm,
    csv_reads scenario_source = Some reads ∧
    ParseMappingFile reads false = Done (tm, None) ∧
    map_index (Mapping.mapping tm) "repoA|main" = ["buildA"] ∧
    map_index (Mapping.mapping tm) "repoA|dev" = ["buildDev"] ∧
    map_index (Mapping.mapping tm) "repoB|main" = ["buildA"] ∧
    map_index (Mapping.mapping tm) "repoC|main" = [].
Proof. do 2 eexists. repeat split; reflexivity. Qed.

(** C6 as stated fails: the rows (a|b, c) and (a, b|c) share the key
    [a|b|c], so the lookup for the pair (a, b|c) also returns the job of the
    row (a|b, c), whose first two fields are not that pair. *)
Lemma lookup_pair_key_collision :
  csv_reads ("a|b;c;j1" +:+ nl +:+ "a;b|c;j2") = Some colliding_reads ∧
  ∃ tm,
    ParseMappingFile colliding_reads false = Done (tm, None) ∧
    map_index (Mapping.mapping tm) (BuildMappingKey ["a"; "b|c"]) = ["j1"; "j2"] ∧
    jobs_of_pair "a" "b|c" (records_of colliding_reads) = ["j2"].
Proof.
  split; [reflexivity |]. eexists. split; [reflexivity |].
  split; reflexivity.
Qed.

(** *** File-matching mode *)

Lemma parse_loop_filematch_rejects (reads : list read) (r : read)
    (m : gmap string (list string)) :
  r ∈ reads → rejected r →
  ∃ err, parse_loop true reads m = Done ({| Mapping.mapping := None |}, Some err).
Proof.
  intros Hin Hbad. revert m.
  induction reads as [|r' reads IH]; intros m; [by apply elem_of_nil in Hin |].
  apply elem_of_cons in Hin as [<- | Hin].
  - destruct r as [record | err]; [| by eexists].
    simpl. destruct (length record =? 4)%nat eqn:E4; simpl; [| by eexists].
    by apply Nat.eqb_eq in E4.
  - destruct r' as [rec | err]; [| by eexists].
    simpl. destruct (length rec =? 4)%nat eqn:E4; simpl; [| by eexists].
    destruct rec as [|r0 [|r1 [|job [|r3 [|]]]]]; try discriminate.
    simpl. by apply IH.
Qed.



(** The same for a plain source as text: a line whose number of fields is
    not 4 makes the load fail, whether the csv reader hands the record over
    or reports its field count. *)
Lemma csv_filematch_rejects (src : string) (record : list string) :
  plain_source src = true → record ∈ csv_records src → length record ≠ 4%nat →
  ∃ reads err,
    csv_reads src = Some reads ∧
    ParseMappingFile reads true = Done ({| Mapping.mapping := None |}, Some err).
Proof.
  intros Hplain Hin Hlen. unfold csv_reads. rewrite Hplain.
  destruct (csv_records src) as [|first rest] eqn:E; [by apply elem_of_nil in Hin |].
  destruct (parse_loop_filematch_rejects
              (map (csv_read (length first)) (first :: rest))
              (csv_read (length first) record) ∅) as [err Herr].
  - by apply list_elem_of_fmap_2.
  - unfold csv_read. by destruct (length record =? length first)%nat.
  - by exists (map (csv_read (length first)) (first :: rest)), err.
Qed.

Lemma csv_filematch_rejects_witness :
  ∃ reads err,
    csv_reads ("repoA;main;buildA;src" +:+ nl +:+ "repoA;dev;buildDev") = Some reads ∧
    ParseMappingFile reads true = Done ({| Mapping.mapping := None |}, Some err).
Proof.
  apply (csv_filematch_rejects _ ["repoA"; "dev"; "buildDev"]).
  - reflexivity.
  - vm_compute. repeat constructor.
  - simpl. lia.
Defined.

(** *** Short records without file matching *)

(** C10. Without file matching the third field is read unchecked: a source
    whose first record has exactly two fields makes [ParseMappingFile] panic
    with an index out of range instead of returning an error, and the text
    [a;b] is such a source. *)
Theorem ParseMappingFile_short_record_panics :
  (∀ (r0 r1 : string) (rest : list read),
     ParseMappingFile (ReadRecord [r0; r1] :: rest) false
     = Panic (IndexOutOfRange 2 2)) ∧
  ∃ reads,
    csv_reads "a;b" = Some reads ∧
    ParseMappingFile reads false = Panic (IndexOutOfRange 2 2).
Proof.
  split; [reflexivity |].
  exists [ReadRecord ["a"; "b"]]. split; reflexivity.
Qed.

(** *** The three outcomes without file matching *)

Lemma parse_loop_outcome (reads : list read) (m : gmap string (list string)) :
  match first_bad reads with
  | None => ∃ m', parse_loop false reads m = Done ({| Mapping.mapping := Some m' |}, None)
  | Some (ReadFail err) =>
      parse_loop false reads m = Done ({| Mapping.mapping := None |}, Some err)
  | Some (ReadRecord record) =>
      parse_loop false reads m = Panic (IndexOutOfRange (length record) (length record))
  end.
Proof.
  revert m. induction reads as [|r reads IH]; intros m; simpl.
  - by exists m.
  - destruct r as [record | err]; [| done].
    destruct record as [|r0 [|r1 [|job more]]]; try done.
    change (3 <=? length (r0 :: r1 :: job :: more))%nat with true. cbv iota.
    apply IH.
Qed.

(** Without file matching a load has one of three outcomes, decided by the
    first result of the reader that is not a record of at least three
    fields: with no such result a table is returned without error; an error
    of the reader is returned as it is, with the nil mapping; a record of
    fewer than three fields makes the load panic, indexing at its length. *)
Theorem ParseMappingFile_outcome (reads : list read) :
  match first_bad reads with
  | None =>
      ∃ m, ParseMappingFile reads false = Done ({| Mapping.mapping := Some m |}, None)
  | Some (ReadFail err) =>
      ParseMappingFile reads false = Done ({| Mapping.mapping := None |}, Some err)
  | Some (ReadRecord record) =>
      ParseMappingFile reads false
      = Panic (IndexOutOfRange (length record) (length record))
  end.
Proof. apply parse_loop_outcome. Qed.

(** *** File-matching mode: the table *)

Lemma jobs_of_key3_cons (key : string) (record : list string)
    (rows : list (list string)) :
  jobs_of_key3 key (record :: rows)
  = match record with
    | [r0; r1; job; r3] =>
        if decide (BuildMappingKey [r0; r1; r3] = key)
        then job :: jobs_of_key3 key rows else jobs_of_key3 key rows
    | _ => jobs_of_key3 key rows
    end.
Proof.
  destruct record as [|r0 [|r1 [|job [|r3 [|]]]]]; try reflexivity.
  unfold jobs_of_key3. cbn [omap list_omap]. by case_decide.
Qed.

Lemma jobs_of_triple_cons (repo branch file : string) (record : list string)
    (rows : list (list string)) :
  jobs_of_triple repo branch file (record :: rows)
  = match record with
    | [r0; r1; job; r3] =>
        if decide (r0 = repo ∧ r1 = branch ∧ r3 = file)
        then job :: jobs_of_triple repo branch file rows
        else jobs_of_triple repo branch file rows
    | _ => jobs_of_triple repo branch file rows
    end.
Proof.
  destruct record as [|r0 [|r1 [|job [|r3 [|]]]]]; try reflexivity.
  unfold jobs_of_triple. cbn [omap list_omap]. by case_decide.
Qed.

Lemma parse_loop_filematch (reads : list read) (m : gmap string (list string))
    (tm : triggerMapping) :
  parse_loop true reads m = Done (tm, None) →
  ∃ m', Mapping.mapping tm = Some m' ∧
    ∀ key, default [] (m' !! key)
           = default [] (m !! key) ++ jobs_of_key3 key (records_of reads).
Proof.
  revert m. induction reads as [|r reads IH]; intros m E; simpl in E.
  - injection E as <-. exists m. split; [done |].
    intros key. by rewrite app_nil_r.
  - destruct r as [record | err]; [| discriminate].
    destruct record as [|r0 [|r1 [|job [|r3 [|]]]]]; try discriminate.
    simpl in E. apply IH in E as (m' & Hm' & Hlook).
    exists m'. split; [done |]. intros key.
    rewrite Hlook. simpl records_of. rewrite jobs_of_key3_cons.
    case_decide as Hk.
    + subst key. rewrite lookup_insert_eq. simpl. by rewrite <- app_assoc.
    + by rewrite lookup_insert_ne.
Qed.

Lemma jobs_of_key3_triple (repo branch file : string) (rows : list (list string)) :
  pipe_free repo → pipe_free branch → Forall pair_pipe_free rows →
  jobs_of_key3 (BuildMappingKey [repo; branch; file]) rows
  = jobs_of_triple repo branch file rows.
Proof.
  intros Hrepo Hbranch. induction 1 as [|record rows Hrec _ IH]; [done |].
  rewrite jobs_of_key3_cons, jobs_of_triple_cons, IH.
  destruct record as [|r0 [|r1 [|job [|r3 [|]]]]]; try done.
  destruct (decide (BuildMappingKey [r0; r1; r3] = BuildMappingKey [repo; branch; file]))
    as [E | NE].
  - apply BuildMappingKey_inj_init in E; [| done | |].
    + injection E as -> -> ->. by rewrite decide_True.
    + repeat constructor; [by apply (Hrec 0%nat); [lia |] | by apply (Hrec 1%nat); [lia |]].
    + by repeat constructor.
  - rewrite decide_False; [done |]. intros (-> & -> & ->). done.
Qed.

(** In file-matching mode, when the source loads and the repository and
    branch, looked up and in every row, contain no pipe, looking up the key
    of (repository, branch, file) returns the third fields of the rows whose
    first, second and fourth fields are that triple, in source order with
    duplicates kept. *)
Theorem ParseMappingFile_lookup_triple (reads : list read) (tm : triggerMapping)
    (repo branch file : string) :
  ParseMappingFile reads true = Done (tm, None) →
  pipe_free repo → pipe_free branch →
  Forall pair_pipe_free (records_of reads) →
  map_index (Mapping.mapping tm) (BuildMappingKey [repo; branch; file])
  = jobs_of_triple repo branch file (records_of reads).
Proof.
  intros E Hrepo Hbranch Hrows.
  apply parse_loop_filematch in E as (m' & -> & Hlook).
  simpl. rewrite Hlook, lookup_empty. simpl.
  by apply jobs_of_key3_triple.
Qed.

Lemma ParseMappingFile_lookup_triple_witness :
  ∃ tm,
    ParseMappingFile [ReadRecord ["repoA"; "main"; "buildA"; "src"];
                      ReadRecord ["repoA"; "main"; "buildDocs"; "docs"];
                      ReadRecord ["repoA"; "main"; "buildB"; "src"]] true
    = Done (tm, None) ∧
    map_index (Mapping.mapping tm) (BuildMappingKey ["repoA"; "main"; "src"])
    = ["buildA"; "buildB"].
Proof.
  eexists. split; [reflexivity |].
  apply (ParseMappingFile_lookup_triple
           [ReadRecord ["repoA"; "main"; "buildA"; "src"];
            ReadRecord ["repoA"; "main"; "buildDocs"; "docs"];
            ReadRecord ["repoA"; "main"; "buildB"; "src"]] _ "repoA" "main" "src").
  - reflexivity.
  - reflexivity.
  - reflexivity.
  - repeat (apply Forall_cons_2 || apply Forall_nil_2);
      (intros [|[|i]] r Hi E; [by injection E as <- | by injection E as <- | lia]).
Defined.

(** In file-matching mode every key of the table has three parts, so the key
    of a (repository, branch) pair without pipes is the key of no row. *)
Lemma filematch_pair_unmapped (reads : list read) (tm : triggerMapping)
    (repo branch : string) :
  ParseMappingFile reads true = Done (tm, None) →
  pipe_free repo → pipe_free branch →
  map_index (Mapping.mapping tm) (BuildMappingKey [repo; branch]) = [].
Proof.
  intros E Hrepo Hbranch.
  apply parse_loop_filematch in E as (m' & -> & Hlook).
  simpl. rewrite Hlook, lookup_empty. simpl. clear Hlook.
  induction (records_of reads) as [|record rows IH]; [done |].
  rewrite jobs_of_key3_cons, IH.
  destruct record as [|r0 [|r1 [|job [|r3 [|]]]]]; try done.
  rewrite decide_False; [done |]. intros E.
  apply (f_equal (count_byte "|"%char)) in E.
  rewrite (count_pipes_key [repo; branch]) in E by by repeat constructor.
  rewrite !BuildMappingKey_cons in E.
  rewrite StringFacts.count_byte_append in E. simpl in E.
  rewrite StringFacts.count_byte_append in E. simpl in E. lia.
Qed.

(** The lookup of a pair after a load without file matching, for use with
    the request handler. *)
Lemma lookup_jobs_of_pair (reads : list read) (tm : triggerMapping)
    (repo branch : string) :
  ParseMappingFile reads false = Done (tm, None) →
  pipe_free repo → Forall repo_pipe_free (records_of reads) →
  map_index (Mapping.mapping tm) (BuildMappingKey [repo; branch])
  = jobs_of_pair repo branch (records_of reads).
Proof.
  intros E Hrepo Hrows.
  apply parse_loop_plain in E as (m' & -> & Hlook).
  simpl. rewrite Hlook, lookup_empty. simpl. by apply jobs_of_key_pair.
Qed.

(** *** File-matching mode never panics *)

Lemma parse_loop_filematch_total (reads : list read) (m : gmap string (list string)) :
  (Forall (λ r, ¬ rejected r) reads ∧
   ∃ m', parse_loop true reads m = Done ({| Mapping.mapping := Some m' |}, None)) ∨
  (Exists rejected reads ∧
   ∃ err, parse_loop true reads m = Done ({| Mapping.mapping := None |}, Some err)).
Proof.
  revert m. induction reads as [|r reads IH]; intros m.
  - left. split; [constructor | by exists m].
  - destruct r as [record | err].
    + destruct (decide (length record = 4%nat)) as [H4 | H4].
      * destruct record as [|r0 [|r1 [|job [|r3 [|]]]]]; try discriminate.
        simpl.
        destruct (IH (<[BuildMappingKey [r0; r1; r3] :=
                         default [] (m !! BuildMappingKey [r0; r1; r3]) ++ [job]]> m))
          as [[Hall Hok] | [Hex Herr]].
        -- left. split; [| done]. constructor; [| done]. simpl. by intros H.
        -- right. split; [by apply Exists_cons_tl | done].
      * right. split; [by apply Exists_cons_hd |].
        apply (parse_loop_filematch_rejects _ (ReadRecord record)); [left | done].
    + right. split; [by apply Exists_cons_hd | by eexists].
Qed.

(** In file-matching mode [ParseMappingFile] never panics: it returns a table
    with a nil error when every result of the reader is a record of exactly
    four fields, and the nil mapping with an error otherwise. *)
Theorem ParseMappingFile_filematch_total (reads : list read) :
  (Forall (λ r, ¬ rejected r) reads ∧
   ∃ m, ParseMappingFile reads true = Done ({| Mapping.mapping := Some m |}, None)) ∨
  (Exists rejected reads ∧
   ∃ err, ParseMappingFile reads true = Done ({| Mapping.mapping := None |}, Some err)).
Proof. apply parse_loop_filematch_total. Qed.

End MappingFacts.

(** ** The dispatcher *)

Module TriggerFacts.
Import Trigger.

Section Dispatch.

Variable validURL : string → bool.
Variable clientDo : Request → do_result.


(** Whatever status the response has, [triggerJob] returns true. *)
Lemma triggerJob_response (g : globals) (job : string) (req : Request)
    (StatusCode : Z) :
  sent (triggerJob validURL clientDo g job) = Some req →
  clientDo req = Response StatusCode →
  returned (triggerJob validURL clientDo g job) = true.
Proof.
  unfold triggerJob, NewRequest.
  destruct (validURL _); [| discriminate].
  destruct (String.eqb (JenkinsUser g) ""); simpl;
    destruct (clientDo _) eqn:E; simpl; intros [= <-] E'; congruence.
Qed.

End Dispatch.


(** C2 (evaluation at the failing input). Without a user the request sent is
    a POST to the base URL plus [/job/build/build]: the token is not part of
    its URL, and no basic-auth credentials are set either. *)
Theorem triggerJob_anonymous_sends_no_token :
  sent (triggerJob (λ _, true) (λ _, Response 201) anonymous_globals "build")
  = Some {| Method := "POST";
            URL := "https://jenkins:8443/job/build/build";
            BasicAuth := None |}.
Proof. reflexivity. Qed.

(** C3 (evaluation at the failing input). On a response with status 500
    [triggerJob] logs the failure and returns true. *)
Theorem triggerJob_status_500_returns_true :
  let r := triggerJob (λ _, true) (λ _, Response 500) anonymous_globals "build" in
  returned r = true ∧ logged r = [LogFailed "build" 500].
Proof. split; reflexivity. Qed.

Section Results.

Variable validURL : string → bool.
Variable clientDo : Request → do_result.

(** What [triggerJob] returns says only whether the server answered: it is
    true exactly when a request was sent and got a response, whatever the
    status.  The status shows in the log alone, which says triggered for the
    statuses from 200 to 299 and failed for all others. *)
Theorem triggerJob_returns_answered (g : globals) (job : string) :
  let r := triggerJob validURL clientDo g job in
  (returned r = true ↔
   ∃ req StatusCode, sent r = Some req ∧ clientDo req = Response StatusCode) ∧
  ∀ req StatusCode,
    sent r = Some req → clientDo req = Response StatusCode →
    logged r = [if decide (200 ≤ StatusCode ≤ 299) then LogTriggered job
                else LogFailed job StatusCode].
Proof.
  unfold triggerJob, NewRequest.
  destruct (validURL _); simpl.
  2: { split; [split; [done | by intros (? & ? & [=] & _)] | by intros ? ? [=]]. }
  assert (∀ req0 : Request,
    let r := match clientDo req0 with
             | Response StatusCode =>
                 {| returned := true; sent := Some req0;
                    logged := [if negb ((200 <=? StatusCode) && (StatusCode <=? 299))
                               then LogFailed job StatusCode else LogTriggered job] |}
             | TransportError err =>
                 {| returned := false; sent := Some req0; logged := [LogError err] |}
             end in
    (returned r = true ↔
     ∃ req StatusCode, sent r = Some req ∧ clientDo req = Response StatusCode) ∧
    ∀ req StatusCode,
      sent r = Some req → clientDo req = Response StatusCode →
      logged r = [if decide (200 ≤ StatusCode ≤ 299) then LogTriggered job
                  else LogFailed job StatusCode]) as Hcase.
  { intros req0. simpl. destruct (clientDo req0) as [code | err] eqn:E; simpl.
    - split; [split; [by eauto | done] |].
      intros req code' [= <-] E'. assert (code' = code) as -> by congruence.
      case_decide as Hr.
      + by rewrite (proj2 (Z.leb_le _ _) (proj1 Hr)), (proj2 (Z.leb_le _ _) (proj2 Hr)).
      + destruct (200 <=? code) eqn:E1; [| done].
        destruct (code <=? 299) eqn:E2; [| done].
        apply Z.leb_le in E1, E2. by destruct Hr.
    - split; [split; [done |] |].
      + intros (req & code & [= <-] & E'). congruence.
      + intros req code [= <-] E'. congruence. }
  destruct (negb (String.eqb (JenkinsUser g) "")); apply Hcase.
Qed.

End Results.

(** A server that answers 404: true is returned, failed is logged. *)
Lemma triggerJob_returns_answered_witness :
  let r := triggerJob (λ _, true) (λ _, Response 404) user_globals "build" in
  returned r = true ∧ logged r = [LogFailed "build" 404].
Proof.
  pose proof (triggerJob_returns_answered (λ _, true) (λ _, Response 404)
                user_globals "build") as [Hret Hlog].
  split.
  - apply Hret. by eauto.
  - exact (Hlog _ 404 eq_refl eq_refl).
Defined.

End TriggerFacts.

(** ** Timers *)

Module TimerFacts.
Import Timer.

(** *** The callback in closed form *)

(** A quiet period of up to 9223372036 seconds is that many seconds. *)
Lemma quiet_delay_seconds (QuietPeriod : Z) :
  0 ≤ QuietPeriod ≤ 9223372036 → quiet_delay QuietPeriod = QuietPeriod * Second.
Proof.
  intros H. unfold quiet_delay, wrap64, Second.
  rewrite Z.mod_small by lia. lia.
Qed.

Lemma expire_end_running (id : nat) (s : state) (tm : timer) :
  timers s !! id = Some tm → t_status tm = Running →
  expire_end id s
  = Some {| timeKeeper := delete (t_job tm) (timeKeeper s);
            timers := <[id := finished tm]> (timers s);
            now := now s; fired := fired s |}.
Proof.
  intros Hid Hrun. unfold expire_end. rewrite Hid, decide_True by done.
  f_equal. destruct (timeKeeper s !! t_job tm) eqn:Hentry.
  - unfold set_status, set_timeKeeper. simpl. by rewrite Hid.
  - unfold set_status. rewrite Hid. by rewrite delete_id.
Qed.

Lemma fire_pending (id : nat) (s : state) (tm : timer) :
  timers s !! id = Some tm → t_status tm = Pending →
  fire id s
  = {| timeKeeper := delete (t_job tm) (timeKeeper s);
       timers := <[id := finished tm]> (timers s);
       now := Z.max (now s) (t_deadline tm);
       fired := fired s ++ [(Z.max (now s) (t_deadline tm), t_job tm)] |}.
Proof.
  intros Hid Hpend. pose proof (lookup_lt_Some _ _ _ Hid) as Hlt.
  unfold fire. rewrite Hid. unfold expire_begin. simpl.
  rewrite Hid, decide_True by done. rewrite decide_True by lia.
  unfold set_status. simpl. rewrite Hid. simpl.
  erewrite expire_end_running;
    [| simpl; by apply list_lookup_insert_eq | done].
  simpl. by rewrite list_insert_insert_eq.
Qed.

Lemma fire_not_pending (id : nat) (s : state) :
  (∀ tm, timers s !! id = Some tm → t_status tm ≠ Pending) → fire id s = s.
Proof.
  intros Hnp. unfold fire. destruct (timers s !! id) as [tm |] eqn:Hid; [| done].
  unfold expire_begin. simpl. rewrite Hid.
  rewrite decide_False; [done |]. by apply Hnp.
Qed.

(** *** The stale cleanup *)

(** C4 (amended). Once the dispatch has returned, the callback of a timer for
    job J deletes the registry entry of J whenever there is one, whichever
    arm installed it: no handle is compared.  It leaves the entries of all
    other jobs and every other timer as they are; a timer armed for J during
    the dispatch loses its entry and stays pending. *)
Theorem expire_end_deletes_any_entry (id : nat) (s : state) (tm : timer) :
  timers s !! id = Some tm → t_status tm = Running →
  ∃ s', expire_end id s = Some s' ∧
    timeKeeper s' !! t_job tm = None ∧
    (∀ job, job ≠ t_job tm → timeKeeper s' !! job = timeKeeper s !! job) ∧
    (∀ id', id' ≠ id → timers s' !! id' = timers s !! id').
Proof.
  intros Hid Hrun. eexists. split; [by apply expire_end_running |].
  simpl. split; [apply lookup_delete_eq |]. split.
  - intros job Hne. by apply lookup_delete_ne.
  - intros id' Hne. by apply list_lookup_insert_ne.
Qed.

(** The cleanup of timer 0 in [race_state], where the entry of J is timer 1. *)
Lemma expire_end_deletes_any_entry_witness :
  timeKeeper race_state !! "J" = Some 1%nat ∧
  ∃ s', expire_end 0 race_state = Some s' ∧
    timeKeeper s' !! "J" = None ∧
    (∀ job, job ≠ "J" → timeKeeper s' !! job = timeKeeper race_state !! job) ∧
    (∀ id', id' ≠ 0%nat → timers s' !! id' = timers race_state !! id').
Proof.
  split; [reflexivity |].
  apply (expire_end_deletes_any_entry 0 race_state
           {| t_job := "J"; t_deadline := 10000000000; t_status := Running |});
    reflexivity.
Defined.

(** C4 as stated fails: J is armed, its timer matures and the callback starts
    dispatching, J is armed again (timer 1 replaces the entry), and then the
    first callback's cleanup removes the entry of timer 1, which is still
    pending. *)
Lemma stale_cleanup_removes_newer_entry :
  ∃ s s',
    run 10 race_schedule (init 0) = Some s ∧
    timers s !! 0%nat
    = Some {| t_job := "J"; t_deadline := 10000000000; t_status := Running |} ∧
    timers s !! 1%nat
    = Some {| t_job := "J"; t_deadline := 20000000000; t_status := Pending |} ∧
    timeKeeper s !! "J" = Some 1%nat ∧
    step 10 (Cleanup 0) s = Some s' ∧
    timeKeeper s' !! "J" = None ∧
    timers s' !! 1%nat
    = Some {| t_job := "J"; t_deadline := 20000000000; t_status := Pending |}.
Proof. do 2 eexists. repeat split; reflexivity. Qed.

(** What the lost entry costs: a third arm no longer finds timer 1, does not
    stop it, and two timers for J are pending at once. *)
Lemma stale_cleanup_leaves_two_pending :
  ∃ s,
    run 10 (race_schedule ++ [Cleanup 0; Arm "J"]) (init 0) = Some s ∧
    t_status <$> timers s = [Finished; Pending; Pending].
Proof. eexists. split; reflexivity. Qed.

(** A timer that was stopped before it matured never runs its callback. *)
Lemma stopped_never_expires (id : nat) (s : state) (tm : timer) :
  timers s !! id = Some tm → t_status tm = Stopped → expire_begin id s = None.
Proof.
  intros Hid Hst. unfold expire_begin. rewrite Hid.
  rewrite decide_False; [done |]. by rewrite Hst.
Qed.

(** *** One job among the others

    What the callbacks of other jobs' timers leave unchanged for job [J]. *)

Section OneJob.

Variable J : string.

Lemma J_same_refl (s : state) : J_same J s s.
Proof. by constructor. Qed.

Lemma J_same_trans (s1 s2 s3 : state) : J_same J s1 s2 → J_same J s2 s3 → J_same J s1 s3.
Proof.
  intros [b1 f1 e1 r1 l1] [b2 f2 e2 r2 l2]. constructor.
  - intros id tm HJ H. by apply b1, b2.
  - intros id tm HJ H. by apply f2, f1.
  - by rewrite e2.
  - by rewrite r2.
  - by rewrite l2.
Qed.

Lemma J_same_pending (s s' : state) (id : nat) :
  J_same J s s' → J_pending J id s' → J_pending J id s.
Proof.
  intros HS (tm & Hid & HJ & Hp). exists tm. split; [| done].
  by apply (Js_back _ _ _ HS).
Qed.

Lemma J_same_set_now (s : state) (t : Z) : J_same J s (set_now t s).
Proof. by constructor. Qed.

Lemma fire_J_same (id : nat) (s : state) : ¬ J_pending J id s → J_same J s (fire id s).
Proof.
  intros Hnp. destruct (timers s !! id) as [tm |] eqn:Hid.
  2: { rewrite fire_not_pending; [apply J_same_refl | intros tm; congruence]. }
  destruct (decide (t_status tm = Pending)) as [Hp | Hp].
  2: { rewrite fire_not_pending; [apply J_same_refl | intros tm'; congruence]. }
  assert (t_job tm ≠ J) as HJ by (intros HJ; apply Hnp; by exists tm).
  rewrite (fire_pending _ _ _ Hid Hp). constructor; simpl.
  - intros id' tm' HJ' Hid'. destruct (decide (id = id')) as [<- | Hne].
    + rewrite list_lookup_insert_eq in Hid' by by eapply lookup_lt_Some.
      injection Hid' as <-. done.
    + by rewrite list_lookup_insert_ne in Hid'.
  - intros id' tm' HJ' Hid'. destruct (decide (id = id')) as [<- | Hne].
    + congruence.
    + by rewrite list_lookup_insert_ne.
  - by apply lookup_delete_ne.
  - unfold fires_of. simpl. rewrite filter_app, filter_cons, decide_False by done.
    by rewrite filter_nil, app_nil_r.
  - apply length_insert.
Qed.

Lemma fold_fire_J_same (l : list nat) (s : state) :
  (∀ id, id ∈ l → ¬ J_pending J id s) →
  J_same J s (fold_left (λ s id, fire id s) l s).
Proof.
  revert s. induction l as [|a l IH]; intros s Hl; simpl; [apply J_same_refl |].
  assert (J_same J s (fire a s)) as Ha by (apply fire_J_same, Hl; left).
  apply (J_same_trans _ _ _ Ha). apply IH.
  intros id Hin Hp. apply (Hl id); [by right |]. by eapply J_same_pending.
Qed.

(** *** The clock under callbacks *)

Lemma fire_now_le (id : nat) (s : state) : now s ≤ now (fire id s).
Proof.
  destruct (timers s !! id) as [tm |] eqn:Hid.
  2: { rewrite fire_not_pending; [done | intros tm; congruence]. }
  destruct (decide (t_status tm = Pending)) as [Hp | Hp].
  - rewrite (fire_pending _ _ _ Hid Hp). simpl. lia.
  - rewrite fire_not_pending; [done | intros tm'; congruence].
Qed.

Lemma fire_now_bound (id : nat) (s : state) (B : Z) :
  now s ≤ B → (∀ tm, timers s !! id = Some tm → t_deadline tm ≤ B) →
  now (fire id s) ≤ B.
Proof.
  intros Hnow HB. destruct (timers s !! id) as [tm |] eqn:Hid.
  2: { rewrite fire_not_pending; [done | intros tm; congruence]. }
  destruct (decide (t_status tm = Pending)) as [Hp | Hp].
  - rewrite (fire_pending _ _ _ Hid Hp). simpl. specialize (HB tm eq_refl). lia.
  - rewrite fire_not_pending; [done | intros tm'; congruence].
Qed.

Lemma fire_deadline (id id' : nat) (s : state) (tm' : timer) :
  timers (fire id s) !! id' = Some tm' →
  ∃ tm, timers s !! id' = Some tm ∧ t_deadline tm = t_deadline tm'.
Proof.
  destruct (timers s !! id) as [tm |] eqn:Hid.
  2: { rewrite fire_not_pending; [by eauto | intros tm; congruence]. }
  destruct (decide (t_status tm = Pending)) as [Hp | Hp].
  2: { rewrite fire_not_pending; [by eauto | intros tm0; congruence]. }
  rewrite (fire_pending _ _ _ Hid Hp). simpl.
  destruct (decide (id = id')) as [<- | Hne].
  - rewrite list_lookup_insert_eq by by eapply lookup_lt_Some.
    intros [= <-]. by exists tm.
  - rewrite list_lookup_insert_ne by done. by eauto.
Qed.

Lemma fold_fire_now (l : list nat) (s : state) (B : Z) :
  now s ≤ B →
  (∀ id tm, id ∈ l → timers s !! id = Some tm → t_deadline tm ≤ B) →
  now s ≤ now (fold_left (λ s id, fire id s) l s) ≤ B.
Proof.
  revert s. induction l as [|a l IH]; intros s Hnow HB; simpl; [lia |].
  pose proof (fire_now_le a s) as Hle.
  assert (now (fire a s) ≤ B) as Hb.
  { apply fire_now_bound; [done |]. intros tm. apply HB. left. }
  destruct (IH (fire a s) Hb) as [H1 H2]; [| lia].
  intros id tm' Hin Hid. apply fire_deadline in Hid as (tm & Hid & <-).
  eapply HB; [by right | done].
Qed.

(** *** The timers due by a time *)

Lemma elem_of_due_from (T : Z) (i : nat) (tms : list timer) (id : nat) (tm : timer) :
  (id, tm) ∈ due_from T i tms ↔
  ∃ k, id = (i + k)%nat ∧ tms !! k = Some tm ∧
       t_status tm = Pending ∧ t_deadline tm ≤ T.
Proof.
  revert i. induction tms as [|tm0 tms IH]; intros i; simpl.
  - split; [by intros ?%elem_of_nil | by intros (k & _ & ? & _)].
  - assert ((id, tm) ∈ due_from T (S i) tms ↔
            ∃ k, id = (i + S k)%nat ∧ tms !! k = Some tm ∧
                 t_status tm = Pending ∧ t_deadline tm ≤ T) as IH'.
    { rewrite IH. split; intros (k & -> & H); exists k; (split; [lia | done]). }
    case_decide as Hd.
    + rewrite elem_of_cons, IH'. split.
      * intros [[= -> ->] | (k & -> & H)].
        -- exists 0%nat. split; [lia |]. by destruct Hd.
        -- by exists (S k).
      * intros ([|k] & -> & Hk & Hp & HT); simpl in Hk.
        -- left. injection Hk as ->. f_equal. lia.
        -- right. by exists k.
    + rewrite IH'. split.
      * intros (k & -> & H). by exists (S k).
      * intros ([|k] & -> & Hk & Hp & HT); simpl in Hk.
        -- injection Hk as ->. by destruct Hd.
        -- by exists k.
Qed.

#[global] Instance earlier_trans : Transitive earlier.
Proof. intros p q r. unfold earlier. lia. Qed.

#[global] Instance earlier_total : Total earlier.
Proof. intros p q. unfold earlier. lia. Qed.

Lemma elem_of_sorted_due (T : Z) (s : state) (id : nat) (tm : timer) :
  (id, tm) ∈ merge_sort earlier (due_from T 0 (timers s)) ↔
  timers s !! id = Some tm ∧ t_status tm = Pending ∧ t_deadline tm ≤ T.
Proof.
  rewrite merge_sort_Permutation, elem_of_due_from. split.
  - by intros (k & -> & H).
  - intros H. by exists id.
Qed.

Lemma elem_of_fire_order (T : Z) (s : state) (id : nat) :
  id ∈ fire_order T s ↔
  ∃ tm, timers s !! id = Some tm ∧ t_status tm = Pending ∧ t_deadline tm ≤ T.
Proof.
  unfold fire_order. rewrite list_elem_of_fmap. split.
  - intros ([id' tm] & -> & Hin). exists tm. by apply elem_of_sorted_due.
  - intros (tm & H). exists (id, tm). split; [done |]. by apply elem_of_sorted_due.
Qed.

Lemma advance_to_now (T : Z) (s : state) : now (advance_to T s) = Z.max (now s) T.
Proof.
  unfold advance_to. simpl.
  destruct (fold_fire_now (fire_order T s) s (Z.max (now s) T)) as [H1 H2]; [lia | | lia].
  intros id tm (tm' & Hid' & _ & HT)%elem_of_fire_order Hid.
  assert (tm = tm') as -> by congruence. lia.
Qed.

Lemma advance_to_J_same (T : Z) (s : state) :
  (∀ id tm, timers s !! id = Some tm → t_job tm = J → t_status tm = Pending →
            T < t_deadline tm) →
  J_same J s (advance_to T s).
Proof.
  intros Hnot. unfold advance_to.
  eapply J_same_trans; [| apply J_same_set_now].
  apply fold_fire_J_same.
  intros id (tm & Hid & _ & HT)%elem_of_fire_order (tm' & Hid' & HJ & Hp).
  assert (tm' = tm) as -> by congruence.
  specialize (Hnot id tm Hid HJ Hp). lia.
Qed.

(** *** Arming *)

Lemma J_same_armed (n : nat) (D : Z) (s s' : state) :
  J_same J s s' → armed J n D s → armed J n D s'.
Proof.
  intros HS (Hn & Honly & Hentry). split; [| split].
  - by apply (Js_forth _ _ _ HS).
  - intros id Hp. apply Honly. by eapply J_same_pending.
  - by rewrite (Js_entry _ _ _ HS).
Qed.

Lemma armed_tracked (n : nat) (D : Z) (s : state) : armed J n D s → tracked J s.
Proof. intros (_ & Honly & Hentry) id Hp. by rewrite (Honly id Hp). Qed.

Lemma Stop_pending (id0 id : nat) (s : state) (tm : timer) :
  timers (Stop id0 s) !! id = Some tm → t_status tm = Pending →
  id ≠ id0 ∧ timers s !! id = Some tm.
Proof.
  unfold Stop. destruct (timers s !! id0) as [tm0 |] eqn:E0.
  - case_decide as Hp0.
    + unfold set_status. rewrite E0. simpl.
      destruct (decide (id0 = id)) as [<- | Hne].
      * rewrite list_lookup_insert_eq by by eapply lookup_lt_Some.
        by intros [= <-].
      * rewrite list_lookup_insert_ne by done. by intros ? _.
    + intros Hid Hp. split; [| done]. intros ->. congruence.
  - intros Hid Hp. split; [| done]. intros ->. congruence.
Qed.

Lemma Stop_frame (id0 : nat) (s : state) :
  length (timers (Stop id0 s)) = length (timers s) ∧
  fired (Stop id0 s) = fired s ∧ now (Stop id0 s) = now s.
Proof.
  unfold Stop, set_status. destruct (timers s !! id0) as [tm0 |]; [| done].
  case_decide; [| done]. simpl. by rewrite length_insert.
Qed.

Lemma arm_fresh (d : Z) (s0 : state) :
  (∀ id, ¬ J_pending J id s0) →
  let s' := let '(timer, s) := AfterFunc d J s0 in
            set_timeKeeper (<[J := timer]> (timeKeeper s)) s in
  armed J (length (timers s0)) (now s0 + d) s' ∧
  fired s' = fired s0 ∧ now s' = now s0.
Proof.
  intros Hnone. simpl. split; [| done]. split; [| split]; simpl.
  - by apply list_lookup_middle.
  - intros id (tm & Hid & HJ & Hp). simpl in Hid.
    apply lookup_app_Some in Hid as [Hid | [Hge Hid]].
    + destruct (Hnone id). by exists tm.
    + destruct (id - length (timers s0))%nat eqn:E; [lia | done].
  - apply lookup_insert_eq.
Qed.

Lemma createTimer_armed (Q : Z) (s : state) :
  tracked J s →
  armed J (length (timers s)) (now s + quiet_delay Q) (createTimer Q J s) ∧
  fired (createTimer Q J s) = fired s ∧
  now (createTimer Q J s) = now s.
Proof.
  intros Htr. unfold createTimer.
  destruct (timeKeeper s !! J) as [id0 |] eqn:Hentry.
  - destruct (Stop_frame id0 s) as (Hlen & Hfired & Hnow).
    rewrite <- Hlen, <- Hfired, <- Hnow.
    apply (arm_fresh (quiet_delay Q)
             (set_timeKeeper (delete J (timeKeeper s)) (Stop id0 s))).
    intros id (tm & Hid & HJ & Hp). simpl in Hid.
    apply Stop_pending in Hid as [Hne Hid]; [| done].
    assert (timeKeeper s !! J = Some id) as E by (apply Htr; by exists tm).
    congruence.
  - apply (arm_fresh (quiet_delay Q) s).
    intros id Hp. apply Htr in Hp. congruence.
Qed.

(** *** The armed timer fires once, at its deadline *)

Lemma advance_to_armed (T : Z) (n : nat) (D : Z) (s : state) :
  armed J n D s → now s ≤ D →
  fires_of J (advance_to T s)
  = fires_of J s ++ (if decide (D ≤ T) then [(D, J)] else []) ∧
  (D ≤ T → ∀ id, ¬ J_pending J id (advance_to T s)).
Proof.
  intros Harm Hnow. pose proof Harm as (Hn & Honly & Hentry).
  case_decide as HT.
  2: { split; [| done].
       rewrite app_nil_r. apply Js_fires, advance_to_J_same.
       intros id tm Hid HJ Hp.
       rewrite (Honly id) in Hid by by exists tm.
       assert (tm = {| t_job := J; t_deadline := D; t_status := Pending |})
         as -> by congruence.
       simpl. lia. }
  set (tm2 := {| t_job := J; t_deadline := D; t_status := Pending |}) in *.
  assert ((n, tm2) ∈ merge_sort earlier (due_from T 0 (timers s))) as Hin
    by by apply elem_of_sorted_due.
  apply list_elem_of_split_l in Hin as (p1 & p2 & Hsplit & Hnotin).
  pose proof (StronglySorted_merge_sort earlier (due_from T 0 (timers s))) as Hsorted.
  assert (∀ id tm, (id, tm) ∈ p1 → timers s !! id = Some tm ∧ id ≠ n) as Hp1.
  { intros id tm Hin.
    assert (timers s !! id = Some tm) as Hid.
    { eapply (elem_of_sorted_due T s). rewrite Hsplit. apply elem_of_app. by left. }
    split; [done |]. intros ->. apply Hnotin.
    by assert (tm = tm2) as -> by congruence. }
  unfold advance_to, fire_order. rewrite Hsplit, fmap_app, fmap_cons.
  rewrite fold_left_app. simpl fold_left.
  set (sa := fold_left (λ s id, fire id s) p1.*1 s).
  assert (J_same J s sa) as Hsa.
  { apply fold_fire_J_same.
    intros id ([id' tm] & -> & Hin)%list_elem_of_fmap Hp.
    apply Hp1 in Hin as [_ Hne]. by apply Hne, Honly. }
  assert (now sa ≤ D) as Hnowa.
  { apply (fold_fire_now p1.*1 s D); [done |].
    intros id tm ([id' tm'] & -> & Hin)%list_elem_of_fmap Hid. simpl in Hid.
    pose proof (Hp1 _ _ Hin) as [Hid' _].
    assert (tm = tm') as -> by congruence.
    rewrite Hsplit in Hsorted.
    apply (StronglySorted_app_1_elem_of earlier _ _ (id', tm') (n, tm2)) in Hsorted;
      [done | done | left]. }
  assert (timers sa !! n = Some tm2) as Hna by by apply (Js_forth _ _ _ Hsa).
  set (sb := fire n sa).
  assert (fires_of J sb = fires_of J s ++ [(D, J)]) as Hfb.
  { unfold sb. rewrite (fire_pending n sa tm2 Hna eq_refl).
    unfold fires_of. simpl. rewrite filter_app, filter_cons, decide_True by done.
    rewrite filter_nil. replace (Z.max (now sa) D) with D by lia.
    f_equal. apply (Js_fires _ _ _ Hsa). }
  assert (∀ id, ¬ J_pending J id sb) as Hidle.
  { intros id (tm & Hid & HJ & Hp). unfold sb in Hid.
    rewrite (fire_pending n sa tm2 Hna eq_refl) in Hid. simpl in Hid.
    destruct (decide (n = id)) as [<- | Hne].
    - rewrite list_lookup_insert_eq in Hid by by eapply lookup_lt_Some.
      injection Hid as <-. done.
    - rewrite list_lookup_insert_ne in Hid by done.
      apply Hne. symmetry. apply Honly. eapply J_same_pending; [exact Hsa |].
      by exists tm. }
  pose proof (fold_fire_J_same p2.*1 sb (λ id _, Hidle id)) as Hsc.
  split.
  - rewrite <- Hfb. unfold fires_of at 1. simpl. apply (Js_fires _ _ _ Hsc).
  - intros _ id Hp. apply (Hidle id). eapply J_same_pending; [exact Hsc |].
    exact Hp.
Qed.


(** Arming J, letting it fire, and arming it again gives a second fire, a
    full quiet period after the second arm. *)
Theorem arm_fire_arm_fires_again (Q t1 t2 T : Z) (s : state) :
  idle J s → now s ≤ t1 → 0 ≤ quiet_delay Q → t1 + quiet_delay Q ≤ t2 →
  fires_of J (advance_to T (run_arms Q [(t1, J); (t2, J)] s))
  = fires_of J s ++ [(t1 + quiet_delay Q, J)] ++
    (if decide (t2 + quiet_delay Q ≤ T) then [(t2 + quiet_delay Q, J)] else []).
Proof.
  intros Hidle H0 Hd H12. unfold run_arms. simpl.
  set (s1 := advance_to t1 s).
  assert (J_same J s s1) as HS1.
  { apply advance_to_J_same. intros id tm Hid HJ Hp.
    by destruct (Hidle id tm Hid HJ). }
  assert (now s1 = t1) as Hnow1 by (unfold s1; rewrite advance_to_now; lia).
  assert (tracked J s1) as Htr1.
  { intros id Hp. apply (J_same_pending _ _ _ HS1) in Hp as (tm & Hid & HJ & Hp).
    by destruct (Hidle id tm Hid HJ). }
  destruct (createTimer_armed Q s1 Htr1) as (Harm2 & Hfired2 & Hnow2).
  set (s2 := createTimer Q J s1) in *. rewrite Hnow1 in Harm2, Hnow2.
  destruct (advance_to_armed t2 _ _ s2 Harm2) as [Hf3 Hidle3]; [lia |].
  rewrite decide_True in Hf3 by done. specialize (Hidle3 H12).
  set (s3 := advance_to t2 s2) in *.
  assert (now s3 = t2) as Hnow3 by (unfold s3; rewrite advance_to_now; lia).
  assert (tracked J s3) as Htr3 by (intros id Hp; by destruct (Hidle3 id)).
  destruct (createTimer_armed Q s3 Htr3) as (Harm4 & Hfired4 & Hnow4).
  set (s4 := createTimer Q J s3) in *. rewrite Hnow3 in Harm4, Hnow4.
  destruct (advance_to_armed T _ _ s4 Harm4) as [-> _]; [lia |].
  rewrite cons_middle, app_assoc. f_equal. unfold fires_of at 1. rewrite Hfired4.
  change (fires_of J s3 = fires_of J s ++ [(t1 + quiet_delay Q, J)]).
  rewrite Hf3. f_equal. unfold fires_of at 1. rewrite Hfired2.
  apply (Js_fires _ _ _ HS1).
Qed.

End OneJob.


(** Job J armed at 0 and again after 12 seconds, with a quiet period of 10
    seconds: it fires 10 and 22 seconds in. *)
Lemma arm_fire_arm_fires_again_witness :
  fires_of "J" (advance_to 30000000000
                  (run_arms 10 [(0, "J"); (12000000000, "J")] (init 0)))
  = [(10000000000, "J"); (22000000000, "J")].
Proof.
  apply (arm_fire_arm_fires_again "J" 10 0 12000000000 30000000000 (init 0));
    [by intros id tm | done | done | done].
Defined.

(** *** A stream of arms *)

Lemma last_cons_default (t t' : Z) (ts : list Z) :
  List.last (t' :: ts) t = List.last ts t'.
Proof.
  revert t t'. induction ts as [|a ts IH]; intros t t'; [done |].
  change (List.last (t' :: a :: ts) t) with (List.last (a :: ts) t).
  by rewrite (IH t a), (IH t' a).
Qed.

Lemma run_arms_armed (J : string) (Q t : Z) (ts : list Z) (n : nat) (s : state) :
  armed J n (t + quiet_delay Q) s → now s = t → within (quiet_delay Q) t ts →
  ∃ n', armed J n' (List.last ts t + quiet_delay Q) (run_arms Q (arms_of J ts) s) ∧
        now (run_arms Q (arms_of J ts) s) = List.last ts t ∧
        fires_of J (run_arms Q (arms_of J ts) s) = fires_of J s.
Proof.
  revert t n s. induction ts as [|t' ts IH]; intros t n s Harm Hnow Hw.
  - exists n. by simpl.
  - destruct Hw as [Ht' Hw]. rewrite last_cons_default.
    unfold arms_of, run_arms. simpl.
    set (s1 := advance_to t' s).
    assert (J_same J s s1) as HS1.
    { apply advance_to_J_same. intros id tm Hid HJ Hp.
      destruct Harm as (Hn & Honly & _).
      rewrite (Honly id) in Hid by by exists tm.
      assert (tm = {| t_job := J; t_deadline := t + quiet_delay Q;
                      t_status := Pending |}) as -> by congruence.
      simpl. lia. }
    assert (now s1 = t') as Hnow1 by (unfold s1; rewrite advance_to_now; lia).
    pose proof (armed_tracked J _ _ _ (J_same_armed J _ _ _ _ HS1 Harm)) as Htr1.
    destruct (createTimer_armed J Q s1 Htr1) as (Harm2 & Hfired2 & Hnow2).
    rewrite Hnow1 in Harm2, Hnow2.
    destruct (IH t' _ _ Harm2 Hnow2 Hw) as (n' & Harm' & Hnow' & Hfires').
    exists n'. split; [exact Harm' |]. split; [exact Hnow' |].
    unfold arms_of, run_arms in Hfires'. rewrite Hfires'.
    unfold fires_of at 1. rewrite Hfired2. apply (Js_fires _ _ _ HS1).
Qed.

(** A stream of arms of job J, each less than a quiet period after the one
    before, makes J fire once only, a quiet period after the last arm: as
    long as the stream goes on, J does not fire. *)
Theorem steady_stream_fires_once (J : string) (Q t1 T : Z) (ts : list Z)
    (s : state) :
  idle J s → now s ≤ t1 → 0 ≤ quiet_delay Q → within (quiet_delay Q) t1 ts →
  fires_of J (advance_to T (run_arms Q (arms_of J (t1 :: ts)) s))
  = fires_of J s ++
    (if decide (List.last ts t1 + quiet_delay Q ≤ T)
     then [(List.last ts t1 + quiet_delay Q, J)] else []).
Proof.
  intros Hidle H0 Hd Hw.
  change (run_arms Q (arms_of J (t1 :: ts)) s)
    with (run_arms Q (arms_of J ts) (createTimer Q J (advance_to t1 s))).
  set (s1 := advance_to t1 s).
  assert (J_same J s s1) as HS1.
  { apply advance_to_J_same. intros id tm Hid HJ Hp.
    by destruct (Hidle id tm Hid HJ). }
  assert (now s1 = t1) as Hnow1 by (unfold s1; rewrite advance_to_now; lia).
  assert (tracked J s1) as Htr1.
  { intros id Hp. apply (J_same_pending J _ _ _ HS1) in Hp as (tm & Hid & HJ & Hp).
    by destruct (Hidle id tm Hid HJ). }
  destruct (createTimer_armed J Q s1 Htr1) as (Harm2 & Hfired2 & Hnow2).
  rewrite Hnow1 in Harm2, Hnow2.
  destruct (run_arms_armed J Q t1 ts _ _ Harm2 Hnow2 Hw) as (n' & Harm' & Hnow' & Hf').
  destruct (advance_to_armed J T _ _ _ Harm') as [-> _]; [lia |].
  f_equal. rewrite Hf'. unfold fires_of at 1. rewrite Hfired2.
  apply (Js_fires _ _ _ HS1).
Qed.

(** Five arms of J, two seconds apart, with a quiet period of 10 seconds:
    one fire, 18 seconds in. *)
Lemma steady_stream_fires_once_witness :
  fires_of "J" (advance_to 30000000000
    (run_arms 10 (arms_of "J" [0; 2000000000; 4000000000; 6000000000; 8000000000])
       (init 0)))
  = [(18000000000, "J")].
Proof.
  apply (steady_stream_fires_once "J" 10 0 30000000000
           [2000000000; 4000000000; 6000000000; 8000000000] (init 0)).
  - by intros id tm.
  - done.
  - done.
  - simpl. repeat split; done.
Defined.

(** *** At most one pending timer per job *)

Lemma createTimer_other_pending (J K : string) (Q : Z) (s : state) (id : nat) :
  J ≠ K → J_pending J id (createTimer Q K s) → J_pending J id s.
Proof.
  intros Hne (tm & Hid & HJ & Hp). exists tm. split; [| done].
  unfold createTimer in Hid.
  destruct (timeKeeper s !! K) as [id0 |]; simpl in Hid;
    apply lookup_app_Some in Hid as [Hid | [_ Hid]].
  - by apply Stop_pending in Hid as [_ Hid].
  - destruct (id - _)%nat; [| done]. injection Hid as <-. by destruct Hne.
  - done.
  - destruct (id - _)%nat; [| done]. injection Hid as <-. by destruct Hne.
Qed.

Lemma createTimer_other_entry (J K : string) (Q : Z) (s : state) :
  J ≠ K → timeKeeper (createTimer Q K s) !! J = timeKeeper s !! J.
Proof.
  intros Hne. unfold createTimer.
  destruct (timeKeeper s !! K) as [id0 |] eqn:E; simpl.
  - rewrite lookup_insert_ne, lookup_delete_ne by done.
    unfold Stop, set_status. by destruct (timers s !! id0).
  - by rewrite lookup_insert_ne.
Qed.

Lemma createTimer_tracked (J K : string) (Q : Z) (s : state) :
  tracked J s → tracked J (createTimer Q K s).
Proof.
  intros Htr. destruct (decide (J = K)) as [<- | Hne].
  - destruct (createTimer_armed J Q s Htr) as (Harm & _). by eapply armed_tracked.
  - intros id Hp. rewrite createTimer_other_entry by done.
    apply Htr. by eapply createTimer_other_pending.
Qed.

Lemma J_pending_or_not (J : string) (id : nat) (s : state) :
  J_pending J id s ∨ ¬ J_pending J id s.
Proof.
  unfold J_pending. destruct (timers s !! id) as [tm |] eqn:Hid.
  - destruct (decide (t_job tm = J)) as [HJ | HJ];
      [destruct (decide (t_status tm = Pending)) as [Hp | Hp] |].
    + left. by exists tm.
    + right. intros (tm' & [= <-] & _ & Hp'). done.
    + right. intros (tm' & [= <-] & HJ' & _). done.
  - right. by intros (tm' & [=] & _).
Qed.

Lemma fire_tracked (J : string) (id : nat) (s : state) :
  tracked J s → tracked J (fire id s).
Proof.
  intros Htr.
  destruct (J_pending_or_not J id s) as [(tm & Hid & HJ & Hp) | Hno].
  - rewrite (fire_pending id s tm Hid Hp).
    intros id' (tm' & Hid' & HJ' & Hp'). simpl in Hid'. exfalso.
    destruct (decide (id = id')) as [<- | Hne].
    + rewrite list_lookup_insert_eq in Hid' by by eapply lookup_lt_Some.
      by injection Hid' as <-.
    + rewrite list_lookup_insert_ne in Hid' by done.
      assert (timeKeeper s !! J = Some id) as E1 by (apply Htr; by exists tm).
      assert (timeKeeper s !! J = Some id') as E2 by (apply Htr; by exists tm').
      congruence.
  - pose proof (fire_J_same J id s Hno) as HS.
    intros id' Hp. rewrite (Js_entry _ _ _ HS).
    apply Htr. by eapply J_same_pending.
Qed.

Lemma advance_to_tracked (J : string) (T : Z) (s : state) :
  tracked J s → tracked J (advance_to T s).
Proof.
  unfold advance_to. generalize (fire_order T s). intros l. revert s.
  induction l as [|id l IH]; intros s Htr; simpl; [done |].
  apply IH. by apply fire_tracked.
Qed.

Lemma run_arms_tracked (J : string) (Q : Z) (arms : list (Z * string)) (s : state) :
  tracked J s → tracked J (run_arms Q arms s).
Proof.
  unfold run_arms. revert s.
  induction arms as [|arm arms IH]; intros s Htr; simpl; [done |].
  apply IH. by apply createTimer_tracked, advance_to_tracked.
Qed.

(** Under prompt schedules, whatever jobs are armed at whatever times, a job
    never has two pending timers, and its pending timer is the one the
    registry holds. *)
Theorem prompt_one_pending_timer (Q t0 T : Z) (arms : list (Z * string))
    (id1 id2 : nat) (tm1 tm2 : timer) :
  let s := advance_to T (run_arms Q arms (init t0)) in
  timers s !! id1 = Some tm1 → t_status tm1 = Pending →
  timers s !! id2 = Some tm2 → t_status tm2 = Pending →
  t_job tm1 = t_job tm2 →
  id1 = id2 ∧ timeKeeper s !! t_job tm1 = Some id1.
Proof.
  intros s H1 Hp1 H2 Hp2 Hjob.
  assert (tracked (t_job tm1) s) as Htr.
  { apply advance_to_tracked, run_arms_tracked. by intros id (tm & ? & _). }
  assert (timeKeeper s !! t_job tm1 = Some id1) as E1 by (apply Htr; by exists tm1).
  assert (timeKeeper s !! t_job tm1 = Some id2) as E2 by (apply Htr; by exists tm2).
  split; [congruence | done].
Qed.

(** J, K and J again are armed one second apart: timer 2 is the pending
    timer of J. *)
Lemma prompt_one_pending_timer_witness :
  let s := advance_to 3000000000
             (run_arms 10 [(0, "J"); (1000000000, "K"); (2000000000, "J")] (init 0)) in
  t_status <$> timers s = [Stopped; Pending; Pending] ∧
  2%nat = 2%nat ∧ timeKeeper s !! "J" = Some 2%nat.
Proof.
  split; [reflexivity |].
  apply (prompt_one_pending_timer 10 0 3000000000
           [(0, "J"); (1000000000, "K"); (2000000000, "J")] 2 2
           {| t_job := "J"; t_deadline := 12000000000; t_status := Pending |}
           {| t_job := "J"; t_deadline := 12000000000; t_status := Pending |});
    reflexivity.
Defined.

(** *** Invariants of every schedule *)

Lemma Stop_other (id0 id : nat) (s : state) :
  id ≠ id0 → timers (Stop id0 s) !! id = timers s !! id.
Proof.
  intros Hne. unfold Stop, set_status.
  destruct (timers s !! id0) as [tm0 |]; [| done].
  case_decide; [| done]. simpl. by apply list_lookup_insert_ne.
Qed.

Lemma createTimer_live (Q : Z) (K : string) (s : state) :
  registered_live s → registered_live (createTimer Q K s).
Proof.
  intros Hlive job id. unfold createTimer.
  destruct (timeKeeper s !! K) as [id0 |] eqn:EK; simpl.
  - destruct (decide (K = job)) as [<- | Hne].
    + rewrite lookup_insert_eq. intros [= <-]. eexists.
      split; [by apply list_lookup_middle |]. by auto.
    + rewrite lookup_insert_ne, lookup_delete_ne by done.
      intros Hentry. destruct (Hlive job id Hentry) as (tm & Hid & HJ & Hst).
      destruct (Hlive K id0 EK) as (tm0 & Hid0 & HJ0 & _).
      exists tm. split; [| done]. apply lookup_app_l_Some.
      rewrite Stop_other; [done |]. intros ->. congruence.
  - destruct (decide (K = job)) as [<- | Hne].
    + rewrite lookup_insert_eq. intros [= <-]. eexists.
      split; [by apply list_lookup_middle |]. by auto.
    + rewrite lookup_insert_ne by done. intros Hentry.
      destruct (Hlive job id Hentry) as (tm & Hid & HJ & Hst).
      exists tm. split; [| done]. by apply lookup_app_l_Some.
Qed.

Lemma expire_begin_pending (id : nat) (s s' : state) :
  expire_begin id s = Some s' →
  ∃ tm, timers s !! id = Some tm ∧ t_status tm = Pending ∧ t_deadline tm ≤ now s ∧
    s' = {| timeKeeper := timeKeeper s;
            timers := <[id := {| t_job := t_job tm; t_deadline := t_deadline tm;
                                 t_status := Running |}]> (timers s);
            now := now s;
            fired := fired s ++ [(now s, t_job tm)] |}.
Proof.
  unfold expire_begin. destruct (timers s !! id) as [tm |] eqn:Hid; [| done].
  case_decide as Hp; [| done]. case_decide as Hd; [| done].
  intros [= <-]. exists tm. repeat split; try done.
  unfold set_status. by rewrite Hid.
Qed.

Lemma expire_end_finished (id : nat) (s s' : state) :
  expire_end id s = Some s' →
  ∃ tm, timers s !! id = Some tm ∧ t_status tm = Running ∧
    s' = {| timeKeeper := delete (t_job tm) (timeKeeper s);
            timers := <[id := finished tm]> (timers s);
            now := now s; fired := fired s |}.
Proof.
  intros E. destruct (timers s !! id) as [tm |] eqn:Hid.
  - destruct (decide (t_status tm = Running)) as [Hr | Hr].
    + rewrite (expire_end_running id s tm Hid Hr) in E. injection E as <-.
      by exists tm.
    + unfold expire_end in E. rewrite Hid in E. by rewrite decide_False in E.
  - unfold expire_end in E. by rewrite Hid in E.
Qed.

Lemma step_live (Q : Z) (e : event) (s s' : state) :
  step Q e s = Some s' → registered_live s → registered_live s'.
Proof.
  destruct e as [job | d | id | id]; simpl; intros E Hlive.
  - injection E as <-. by apply createTimer_live.
  - case_decide; [| done]. by injection E as <-.
  - apply expire_begin_pending in E as (tm & Hid & Hp & _ & ->).
    intros job id' Hentry. simpl in *.
    destruct (Hlive job id' Hentry) as (tm' & Hid' & HJ & Hst).
    destruct (decide (id = id')) as [<- | Hne].
    + eexists. split; [apply list_lookup_insert_eq; by eapply lookup_lt_Some |].
      simpl. split; [congruence | by right].
    + exists tm'. by rewrite list_lookup_insert_ne.
  - apply expire_end_finished in E as (tm & Hid & Hr & ->).
    intros job id' Hentry. simpl in *.
    apply lookup_delete_Some in Hentry as [Hne Hentry].
    destruct (Hlive job id' Hentry) as (tm' & Hid' & HJ & Hst).
    exists tm'. split; [| done]. rewrite list_lookup_insert_ne; [done |].
    intros ->. congruence.
Qed.

(** In every interleaving of arms, timer expiries and cleanups, each entry of
    the registry names a timer of its own job that is pending or whose
    callback is running: never a stopped or finished timer, never a timer of
    another job. *)
Theorem registry_entries_live (Q : Z) (es : list event) (s0 s : state) :
  registered_live s0 → run Q es s0 = Some s → registered_live s.
Proof.
  revert s0. induction es as [|e es IH]; intros s0 Hlive E; simpl in E.
  - by injection E as <-.
  - destruct (step Q e s0) as [s1 |] eqn:E1; [| done].
    apply (IH s1); [| done]. by eapply step_live.
Qed.

(** The schedule with the race, from the empty registry. *)
Lemma registry_entries_live_witness : registered_live race_state.
Proof.
  apply (registry_entries_live 10 race_schedule (init 0) race_state).
  - by intros job id.
  - reflexivity.
Defined.

(** *** Every fire is backed by a timer *)

Lemma started_count_app (l : list timer) (x : timer) :
  started_count (l ++ [x]) = (started_count l + (if started x then 1 else 0))%nat.
Proof. induction l as [|y l IH]; simpl; [lia | rewrite IH; lia]. Qed.

Lemma started_count_insert (l : list timer) (i : nat) (x y : timer) :
  l !! i = Some x →
  (started_count (<[i := y]> l) + (if started x then 1 else 0)
   = started_count l + (if started y then 1 else 0))%nat.
Proof.
  revert i. induction l as [|z l IH]; intros [|i] Hi; simpl in *; try done.
  - injection Hi as ->. lia.
  - specialize (IH i Hi). lia.
Qed.

(** The timers backing the calls [fs] are still there after the status of
    timer [i] changes, unless a started timer becomes unstarted. *)
Lemma backing_insert (fs : list (Z * string)) (l : list timer) (i : nat)
    (x : timer) (st : timer_status) :
  l !! i = Some x → (started x = true → started (with_status st x) = true) →
  (∀ t job, (t, job) ∈ fs →
     ∃ id tm, l !! id = Some tm ∧ t_job tm = job ∧ t_deadline tm ≤ t ∧
              started tm = true) →
  ∀ t job, (t, job) ∈ fs →
    ∃ id tm, <[i := with_status st x]> l !! id = Some tm ∧ t_job tm = job ∧
             t_deadline tm ≤ t ∧ started tm = true.
Proof.
  intros Hi Hst Hback t job Hin.
  destruct (Hback t job Hin) as (id & tm & Hid & HJ & Hd & Hs).
  destruct (decide (i = id)) as [<- | Hne].
  - exists i, (with_status st x).
    assert (tm = x) as -> by congruence.
    split; [apply list_lookup_insert_eq; by eapply lookup_lt_Some |].
    by auto.
  - exists id, tm. by rewrite list_lookup_insert_ne.
Qed.

Lemma Stop_backed (id0 : nat) (s : state) :
  fires_backed s → fires_backed (Stop id0 s).
Proof.
  intros [Hcount Hback]. unfold Stop, set_status.
  destruct (timers s !! id0) as [tm0 |] eqn:E0; [| done].
  case_decide as Hp; [| done]. split; simpl.
  - pose proof (started_count_insert (timers s) id0 tm0 (with_status Stopped tm0) E0) as H.
    unfold started in H at 1 2. simpl in H. rewrite Hp in H.
    unfold with_status in H. lia.
  - apply (backing_insert (fired s) (timers s) id0 tm0 Stopped E0); [| done].
    unfold started. by rewrite Hp.
Qed.

Lemma AfterFunc_backed (d : Z) (job : string) (s : state) :
  fires_backed s → fires_backed (AfterFunc d job s).2.
Proof.
  intros [Hcount Hback]. split; simpl.
  - rewrite started_count_app. simpl. lia.
  - intros t j Hin. destruct (Hback t j Hin) as (id & tm & Hid & H).
    exists id, tm. split; [by apply lookup_app_l_Some | done].
Qed.

Lemma createTimer_backed (Q : Z) (K : string) (s : state) :
  fires_backed s → fires_backed (createTimer Q K s).
Proof.
  intros Hb. unfold createTimer.
  destruct (timeKeeper s !! K) as [id0 |].
  - apply (AfterFunc_backed (quiet_delay Q) K
             (set_timeKeeper (delete K (timeKeeper s)) (Stop id0 s))).
    exact (Stop_backed id0 s Hb).
  - by apply (AfterFunc_backed (quiet_delay Q) K s).
Qed.

Lemma step_backed (Q : Z) (e : event) (s s' : state) :
  step Q e s = Some s' → fires_backed s → fires_backed s'.
Proof.
  destruct e as [job | d | id | id]; simpl; intros E Hb.
  - injection E as <-. by apply createTimer_backed.
  - case_decide; [| done]. by injection E as <-.
  - apply expire_begin_pending in E as (tm & Hid & Hp & Hd & ->).
    destruct Hb as [Hcount Hback]. split; simpl.
    + pose proof (started_count_insert (timers s) id tm (with_status Running tm) Hid) as H.
      unfold started in H at 1 2. simpl in H. rewrite Hp in H.
      unfold with_status in H. rewrite length_app. simpl. lia.
    + intros t job [Hin | [= -> ->]%list_elem_of_singleton]%elem_of_app.
      * apply (backing_insert (fired s) (timers s) id tm Running Hid); try done.
      * exists id, (with_status Running tm).
        split; [apply list_lookup_insert_eq; by eapply lookup_lt_Some |].
        by auto.
  - apply expire_end_finished in E as (tm & Hid & Hr & ->).
    destruct Hb as [Hcount Hback]. split; simpl.
    + pose proof (started_count_insert (timers s) id tm (finished tm) Hid) as H.
      unfold started in H at 1 2. simpl in H. rewrite Hr in H. lia.
    + by apply (backing_insert (fired s) (timers s) id tm Finished Hid).
Qed.

(** In every interleaving, [triggerJob] has been called as many times as
    there are timers whose callback has started, so stopped and pending
    timers account for no call; and each call for a job was made at or after
    the deadline of a started timer of that job, never before a quiet period
    had elapsed. *)
Theorem fires_backed_by_timers (Q : Z) (es : list event) (s0 s : state) :
  fires_backed s0 → run Q es s0 = Some s → fires_backed s.
Proof.
  revert s0. induction es as [|e es IH]; intros s0 Hb E; simpl in E.
  - by injection E as <-.
  - destruct (step Q e s0) as [s1 |] eqn:E1; [| done].
    apply (IH s1); [| done]. by eapply step_backed.
Qed.

(** The schedule with the race and its stale cleanup, from the start. *)
Lemma fires_backed_by_timers_witness :
  ∃ s, run 10 (race_schedule ++ [Cleanup 0%nat]) (init 0) = Some s ∧ fires_backed s.
Proof.
  eexists. split; [reflexivity |].
  eapply (fires_backed_by_timers 10 (race_schedule ++ [Cleanup 0%nat]) (init 0)).
  - split; [reflexivity | by intros t job ?%elem_of_nil].
  - reflexivity.
Defined.

(** *** Arming several jobs *)

Lemma createTimer_now (Q : Z) (K : string) (s : state) :
  now (createTimer Q K s) = now s.
Proof.
  unfold createTimer. destruct (timeKeeper s !! K) as [id0 |]; simpl; [| done].
  by destruct (Stop_frame id0 s) as (_ & _ & ->).
Qed.

Lemma createTimer_pending_at_new (Q : Z) (K : string) (s : state) :
  pending_at K (now s + quiet_delay Q) (createTimer Q K s).
Proof.
  unfold createTimer, pending_at.
  destruct (timeKeeper s !! K) as [id0 |]; simpl.
  - destruct (Stop_frame id0 s) as (_ & _ & ->). eexists.
    split; [apply lookup_insert_eq | by apply list_lookup_middle].
  - eexists. split; [apply lookup_insert_eq | by apply list_lookup_middle].
Qed.

Lemma createTimer_pending_at_other (Q : Z) (J K : string) (D : Z) (s : state) :
  registered_live s → J ≠ K → pending_at J D s → pending_at J D (createTimer Q K s).
Proof.
  intros Hlive Hne (id & Hentry & Hid). exists id.
  split; [by rewrite createTimer_other_entry |].
  unfold createTimer. destruct (timeKeeper s !! K) as [id0 |] eqn:EK; simpl.
  - destruct (Hlive K id0 EK) as (tm0 & Hid0 & HJ0 & _).
    apply lookup_app_l_Some. rewrite Stop_other; [done |].
    intros ->. rewrite Hid in Hid0. injection Hid0 as <-. by destruct Hne.
  - by apply lookup_app_l_Some.
Qed.

Lemma arm_all (Q : Z) (jobs : list string) (s : state) :
  registered_live s →
  let s' := fold_left (λ s job, createTimer Q job s) jobs s in
  registered_live s' ∧ now s' = now s ∧
  ∀ job, job ∈ jobs → pending_at job (now s + quiet_delay Q) s'.
Proof.
  intros Hlive. cbv zeta. induction jobs as [|K jobs IH] using rev_ind.
  - split; [done |]. split; [done |]. by intros job ?%elem_of_nil.
  - rewrite fold_left_app. cbn [fold_left]. destruct IH as (Hlive' & Hnow' & Hall).
    split; [by apply createTimer_live |].
    split; [by rewrite createTimer_now |].
    intros job Hin. destruct (decide (job = K)) as [-> | Hne].
    + rewrite <- Hnow'. apply createTimer_pending_at_new.
    + apply createTimer_pending_at_other; [done | done |].
      apply Hall. apply elem_of_app in Hin as [Hin | Hin]; [done |].
      by apply list_elem_of_singleton in Hin.
Qed.

(** *** The quiet period as a duration *)

(** The duration [time.Second * time.Duration(QuietPeriod)] is a 64-bit
    value, and it is the quiet period in nanoseconds exactly for quiet
    periods of at most 9223372036 seconds in absolute value: beyond that the
    product wraps around. *)
Theorem quiet_delay_wraps (QuietPeriod : Z) :
  - 2 ^ 63 ≤ quiet_delay QuietPeriod < 2 ^ 63 ∧
  (quiet_delay QuietPeriod = Second * QuietPeriod ↔
   -9223372036 ≤ QuietPeriod ≤ 9223372036).
Proof.
  unfold quiet_delay, wrap64, Second.
  change (2 ^ 63) with 9223372036854775808.
  change (2 ^ 64) with 18446744073709551616.
  pose proof (Z.mod_pos_bound (1000000000 * QuietPeriod + 9223372036854775808)
                18446744073709551616 eq_refl) as Hb.
  split; [lia |]. split.
  - intros E. lia.
  - intros H. rewrite Z.mod_small by lia. lia.
Qed.

Lemma createTimer_fired (Q : Z) (K : string) (s : state) :
  fired (createTimer Q K s) = fired s.
Proof.
  unfold createTimer. destruct (timeKeeper s !! K) as [id0 |]; simpl; [| done].
  by destruct (Stop_frame id0 s) as (_ & -> & _).
Qed.

(** *** Other jobs do not interfere *)

Lemma fire_live (id : nat) (s : state) :
  registered_live s → registered_live (fire id s).
Proof.
  intros Hlive. destruct (timers s !! id) as [tm |] eqn:Hid.
  2: { rewrite fire_not_pending; [done | intros tm; congruence]. }
  destruct (decide (t_status tm = Pending)) as [Hp | Hp].
  2: { rewrite fire_not_pending; [done | intros tm'; congruence]. }
  rewrite (fire_pending id s tm Hid Hp). intros job id' Hentry. simpl in *.
  apply lookup_delete_Some in Hentry as [Hne Hentry].
  destruct (Hlive job id' Hentry) as (tm' & Hid' & HJ & Hst).
  exists tm'. split; [| done]. rewrite list_lookup_insert_ne; [done |].
  intros ->. congruence.
Qed.

Lemma advance_to_live (T : Z) (s : state) :
  registered_live s → registered_live (advance_to T s).
Proof.
  unfold advance_to. generalize (fire_order T s). intros l. revert s.
  induction l as [|id l IH]; intros s Hlive; simpl; [done |].
  apply IH. by apply fire_live.
Qed.

Lemma createTimer_other_armed (J K : string) (Q : Z) (n : nat) (D : Z) (s : state) :
  registered_live s → J ≠ K → armed J n D s → armed J n D (createTimer Q K s).
Proof.
  intros Hlive Hne (Hn & Honly & Hentry).
  destruct (createTimer_pending_at_other Q J K D s Hlive Hne) as (id & Hentry' & Hid').
  { by exists n. }
  rewrite createTimer_other_entry in Hentry' by done.
  assert (id = n) as -> by congruence.
  split; [done |]. split.
  - intros id Hp. apply Honly. by eapply createTimer_other_pending.
  - by rewrite createTimer_other_entry.
Qed.

Lemma other_arms_idle (J : string) (Q T : Z) (arms : list (Z * string)) (s : state) :
  Forall (λ arm, arm.2 ≠ J) arms →
  (∀ id, ¬ J_pending J id s) →
  fires_of J (advance_to T (run_arms Q arms s)) = fires_of J s.
Proof.
  intros Harms. revert s. induction Harms as [|[t K] arms HK _ IH]; intros s Hidle.
  - apply Js_fires, advance_to_J_same. intros id tm Hid HJ Hp.
    destruct (Hidle id). by exists tm.
  - change (run_arms Q ((t, K) :: arms) s)
      with (run_arms Q arms (createTimer Q K (advance_to t s))).
    simpl in HK.
    assert (J_same J s (advance_to t s)) as HS.
    { apply advance_to_J_same. intros id tm Hid HJ Hp.
      destruct (Hidle id). by exists tm. }
    rewrite IH.
    + unfold fires_of at 1.
      rewrite (createTimer_fired Q K (advance_to t s)).
      apply (Js_fires _ _ _ HS).
    + intros id Hp. apply createTimer_other_pending in Hp; [| done].
      apply (Hidle id). by eapply J_same_pending.
Qed.

(** While job J has its timer pending, arms of other jobs, at whatever
    times up to [T], neither cancel nor delay nor repeat the fire of J: up
    to [T], J fires exactly when its own deadline says so. *)
Theorem other_jobs_do_not_interfere (J : string) (Q T : Z) (n : nat) (D : Z)
    (arms : list (Z * string)) (s : state) :
  registered_live s → armed J n D s → now s ≤ D →
  Forall (λ arm, arm.2 ≠ J ∧ arm.1 ≤ T) arms →
  fires_of J (advance_to T (run_arms Q arms s))
  = fires_of J s ++ (if decide (D ≤ T) then [(D, J)] else []).
Proof.
  intros Hlive Harm Hnow Harms. revert s Hlive Harm Hnow.
  induction Harms as [|[t K] arms [HK Ht] Harms IH]; intros s Hlive Harm Hnow.
  - destruct (advance_to_armed J T n D s Harm Hnow) as [E _]. exact E.
  - change (run_arms Q ((t, K) :: arms) s)
      with (run_arms Q arms (createTimer Q K (advance_to t s))).
    simpl in HK, Ht.
    destruct (advance_to_armed J t n D s Harm Hnow) as [Hf Hidle].
    destruct (decide (D ≤ t)) as [HD | HD].
    + rewrite other_arms_idle.
      * unfold fires_of at 1.
        rewrite (createTimer_fired Q K (advance_to t s)).
        change (fires_of J (advance_to t s)
                = fires_of J s ++ (if decide (D ≤ T) then [(D, J)] else [])).
        rewrite Hf, decide_True by lia. done.
      * eapply Forall_impl; [exact Harms |]. by intros arm [? _].
      * intros id Hp. apply createTimer_other_pending in Hp; [| done].
        by apply (Hidle HD id).
    + assert (J_same J s (advance_to t s)) as HS.
      { apply advance_to_J_same. intros id tm Hid HJ Hp.
        destruct Harm as (Hn & Honly & _).
        rewrite (Honly id) in Hid by by exists tm.
        assert (tm = {| t_job := J; t_deadline := D; t_status := Pending |})
          as -> by congruence.
        simpl. lia. }
      rewrite IH.
      * f_equal. unfold fires_of at 1.
        rewrite (createTimer_fired Q K (advance_to t s)).
        apply (Js_fires _ _ _ HS).
      * by apply createTimer_live, advance_to_live.
      * apply createTimer_other_armed; [by apply advance_to_live | done |].
        by apply (J_same_armed J n D s).
      * rewrite createTimer_now, advance_to_now. lia.
Qed.

(** J is armed at 0 with a quiet period of 10 seconds; K and L are armed
    while J waits and after: J fires once, 10 seconds in. *)
Lemma other_jobs_do_not_interfere_witness :
  fires_of "J" (advance_to 30000000000
                  (run_arms 10 [(3000000000, "K"); (9000000000, "L");
                                (12000000000, "K")]
                     (createTimer 10 "J" (init 0))))
  = [(10000000000, "J")].
Proof.
  apply (other_jobs_do_not_interfere "J" 10 30000000000 0 10000000000
           [(3000000000, "K"); (9000000000, "L"); (12000000000, "K")]
           (createTimer 10 "J" (init 0))).
  - apply createTimer_live. by intros job id.
  - apply (createTimer_armed "J" 10 (init 0)). by intros id (tm & ? & _).
  - done.
  - repeat (apply Forall_cons_2 || apply Forall_nil_2); by split.
Defined.

(** *** A superseded timer is cancelled for good *)

Lemma step_stopped (Q : Z) (e : event) (s s' : state) (id : nat) (tm : timer) :
  step Q e s = Some s' →
  timers s !! id = Some tm → t_status tm = Stopped →
  timers s' !! id = Some tm.
Proof.
  intros E Hid Hst. destruct e as [job | d | id' | id']; simpl in E.
  - injection E as <-. unfold createTimer.
    destruct (timeKeeper s !! job) as [id0 |]; simpl; apply lookup_app_l_Some;
      [| done].
    destruct (decide (id = id0)) as [-> | Hne]; [| by rewrite Stop_other].
    unfold Stop. rewrite Hid. rewrite decide_False; [done |]. by rewrite Hst.
  - case_decide; [| done]. by injection E as <-.
  - apply expire_begin_pending in E as (tm' & Hid' & Hp & _ & ->). simpl.
    rewrite list_lookup_insert_ne; [done |]. intros ->. congruence.
  - apply expire_end_finished in E as (tm' & Hid' & Hr & ->). simpl.
    rewrite list_lookup_insert_ne; [done |]. intros ->. congruence.
Qed.

Lemma run_stopped (Q : Z) (es : list event) (s s' : state) (id : nat) (tm : timer) :
  run Q es s = Some s' →
  timers s !! id = Some tm → t_status tm = Stopped →
  timers s' !! id = Some tm.
Proof.
  revert s. induction es as [|e es IH]; intros s E Hid Hst; simpl in E.
  - by injection E as <-.
  - destruct (step Q e s) as [s1 |] eqn:E1; [| done].
    apply (IH s1); [done | | done]. by eapply step_stopped.
Qed.

Lemma createTimer_stops (Q : Z) (J : string) (s : state) (id : nat) (tm : timer) :
  timeKeeper s !! J = Some id → timers s !! id = Some tm → t_status tm = Pending →
  timers (createTimer Q J s) !! id = Some (with_status Stopped tm).
Proof.
  intros Hentry Hid Hp. unfold createTimer. rewrite Hentry. simpl.
  apply lookup_app_l_Some. unfold Stop. rewrite Hid, decide_True by done.
  unfold set_status. rewrite Hid. simpl.
  apply list_lookup_insert_eq. by eapply lookup_lt_Some.
Qed.

(** In every interleaving: when a job is armed while the timer the registry
    holds for it is still pending, that timer is stopped and stays stopped
    through everything that follows, so its callback never runs. *)
Theorem superseded_timer_stays_stopped (Q : Z) (J : string) (es : list event)
    (s s' : state) (id : nat) (tm : timer) :
  timeKeeper s !! J = Some id → timers s !! id = Some tm → t_status tm = Pending →
  run Q (Arm J :: es) s = Some s' →
  timers s' !! id = Some (with_status Stopped tm) ∧ expire_begin id s' = None.
Proof.
  intros Hentry Hid Hp E. simpl in E.
  assert (timers s' !! id = Some (with_status Stopped tm)) as Hid'.
  { apply (run_stopped Q es (createTimer Q J s)); [done | | done].
    by apply createTimer_stops. }
  split; [done |]. unfold expire_begin. rewrite Hid'. by rewrite decide_False.
Qed.

(** J is armed twice, two seconds apart; whatever is tried afterwards, the
    first timer stays stopped. *)
Lemma superseded_timer_stays_stopped_witness :
  ∃ s', run 10 [Arm "J"; Sleep 20000000000; Expire 1%nat; Cleanup 1%nat]
          (createTimer 10 "J" (init 0)) = Some s' ∧
    timers s' !! 0%nat
    = Some {| t_job := "J"; t_deadline := 10000000000; t_status := Stopped |} ∧
    expire_begin 0 s' = None.
Proof.
  eexists. split; [reflexivity |].
  eapply (superseded_timer_stays_stopped 10 "J"
            [Sleep 20000000000; Expire 1%nat; Cleanup 1%nat]
            (createTimer 10 "J" (init 0)) _ 0
            {| t_job := "J"; t_deadline := 10000000000; t_status := Pending |});
    reflexivity.
Defined.

End TimerFacts.

(** ** Startup and requests *)

Module AppFacts.
Import Key App.

(** Whenever the file opens and parsing reports an error,
    [ProcessMappingFile] returns a nil error and leaves the table as it was. *)
Lemma ProcessMappingFile_parse_error (w : world) (g : globals) (path : string)
    (file : list Mapping.read) (tm : Mapping.triggerMapping) (perr : error) :
  Files w path = Some file →
  Mapping.ParseMappingFile file (FileMatching g) = Done (tm, Some perr) →
  ProcessMappingFile w g path = Done (g, None).
Proof. intros Hopen Hparse. unfold ProcessMappingFile. by rewrite Hopen, Hparse. Qed.

(** C1 (evaluation at the failing input). The mapping file opens and the
    parser reports an error on it, yet [ProcessMappingFile] returns no error,
    the table stays as it was, and [run] goes on to serve. *)
Theorem ProcessMappingFile_returns_nil_on_parse_error :
  Mapping.csv_reads ragged_source = Some ragged_file ∧
  Mapping.ParseMappingFile ragged_file false
  = Done ({| Mapping.mapping := None |}, Some csv_ErrFieldCount) ∧
  ProcessMappingFile ragged_world Trigger.anonymous_globals "mapping.csv"
  = Done (Trigger.anonymous_globals, None) ∧
  run (Args ragged_world) ragged_world Trigger.anonymous_globals
  = Done (Trigger.anonymous_globals,
          [EffOpen "mapping.csv"; EffHandleFunc "/"; EffListenAndServe ":8080"],
          None).
Proof. repeat split; reflexivity. Qed.



(** A request for a pair with mapped jobs arms each of them; a request for a
    pair without jobs changes nothing. *)
Lemma handler_scenario :
  let g := set_mapping (Some {["repoA|main" := ["buildA"; "buildB"]]})
             Trigger.anonymous_globals in
  Timer.timeKeeper
    (handler g {["repo" := ["repoA"]; "branch" := ["main"]]} (Timer.init 0))
  = {["buildA" := 0%nat; "buildB" := 1%nat]} ∧
  handler g {["repo" := ["repoA"]]} (Timer.init 0) = Timer.init 0.
Proof. split; [by apply map_eq; intros k; vm_compute | reflexivity]. Qed.

(** C9. [main] does not parse any flag, so [run] sees the variables at their
    zero values: whatever the arguments, the environment and the files,
    [run] returns the error "No JENKINS_URL defined" and the process exits
    with status 1 without opening the mapping file or serving. *)
Theorem program_always_fails_without_url :
  ∀ w : world,
    run (Args w) w initial_globals
    = Done (initial_globals, [], Some (errors_New "No JENKINS_URL defined")) ∧
    program w
    = Done (initial_globals, [], Fatal (errors_New "No JENKINS_URL defined") 1).
Proof. intros w. split; reflexivity. Qed.

(** A request with a repository arms every job mapped to its repository and
    branch: afterwards the registry holds, for each of them, a pending timer
    due one quiet period after the request. *)
Theorem handler_arms_mapped_jobs (g : globals) (query : gmap string (list string))
    (s : Timer.state) (repo branch : string) (files : list string) (job : string) :
  Timer.registered_live s →
  ParseGetRequest query = (repo, branch, files, None) →
  job ∈ map_index (mapping g) (BuildMappingKey [repo; branch]) →
  Timer.pending_at job (Timer.now s + Timer.quiet_delay (QuietPeriod g))
    (handler g query s).
Proof.
  intros Hlive Hparse Hin. unfold handler. rewrite Hparse.
  destruct (map_index (mapping g) (BuildMappingKey [repo; branch])) as [|j jobs] eqn:E;
    [by apply elem_of_nil in Hin |].
  change (length (j :: jobs) =? 0)%nat with false. cbv iota.
  by apply (TimerFacts.arm_all (QuietPeriod g) (j :: jobs) s Hlive).
Qed.

Lemma handler_arms_mapped_jobs_witness :
  let g := set_mapping (Some {["repoA|main" := ["buildA"; "buildB"]]})
             Trigger.anonymous_globals in
  Timer.pending_at "buildB" 10000000000
    (handler g {["repo" := ["repoA"]; "branch" := ["main"]]} (Timer.init 0)).
Proof.
  apply (handler_arms_mapped_jobs
           (set_mapping (Some {["repoA|main" := ["buildA"; "buildB"]]})
              Trigger.anonymous_globals)
           {["repo" := ["repoA"]; "branch" := ["main"]]} (Timer.init 0)
           "repoA" "main" [] "buildB").
  - by intros job id.
  - reflexivity.
  - vm_compute. repeat constructor.
Defined.

(** *** Loading, then handling requests *)

Lemma ProcessMappingFile_loaded (w : world) (g : globals) (path : string)
    (reads : list Mapping.read) (tm : Mapping.triggerMapping) :
  Files w path = Some reads →
  Mapping.ParseMappingFile reads (FileMatching g) = Done (tm, None) →
  ProcessMappingFile w g path = Done (set_mapping (Mapping.mapping tm) g, None).
Proof. intros Hopen Hparse. unfold ProcessMappingFile. by rewrite Hopen, Hparse. Qed.

(** After a successful load without file matching, a request for a
    repository and branch arms every job of the rows with that repository
    and branch (no pipe in the repositories): each gets a pending timer due
    one quiet period after the request. *)
Theorem load_then_handle_arms_rows (w : world) (g g' : globals) (path : string)
    (reads : list Mapping.read) (tm : Mapping.triggerMapping)
    (query : gmap string (list string)) (repo branch : string)
    (files : list string) (s : Timer.state) (job : string) :
  Files w path = Some reads → FileMatching g = false →
  Mapping.ParseMappingFile reads false = Done (tm, None) →
  ProcessMappingFile w g path = Done (g', None) →
  ParseGetRequest query = (repo, branch, files, None) →
  pipe_free repo → Forall Mapping.repo_pipe_free (Mapping.records_of reads) →
  Timer.registered_live s →
  job ∈ Mapping.jobs_of_pair repo branch (Mapping.records_of reads) →
  Timer.pending_at job (Timer.now s + Timer.quiet_delay (QuietPeriod g))
    (handler g' query s).
Proof.
  intros Hopen Hfm Hparse Hload Hreq Hrepo Hrows Hlive Hjob.
  rewrite (ProcessMappingFile_loaded w g path reads tm Hopen) in Hload
    by by rewrite Hfm.
  injection Hload as <-.
  unfold handler. rewrite Hreq. simpl mapping.
  rewrite (MappingFacts.lookup_jobs_of_pair reads tm repo branch Hparse Hrepo Hrows).
  destruct (Mapping.jobs_of_pair repo branch (Mapping.records_of reads))
    as [|j jobs]; [by apply elem_of_nil in Hjob |].
  change (length (j :: jobs) =? 0)%nat with false. cbv iota.
  by apply (TimerFacts.arm_all (QuietPeriod g) (j :: jobs) s Hlive).
Qed.

Lemma load_then_handle_arms_rows_witness :
  ∃ g', ProcessMappingFile scenario_world Trigger.anonymous_globals "mapping.csv"
        = Done (g', None) ∧
    Timer.pending_at "buildA" 10000000000
      (handler g' {["repo" := ["repoB"]; "branch" := ["main"]]} (Timer.init 0)).
Proof.
  eexists. split; [reflexivity |].
  eapply (load_then_handle_arms_rows scenario_world Trigger.anonymous_globals _
            "mapping.csv" _ _ {["repo" := ["repoB"]; "branch" := ["main"]]}
            "repoB" "main" [] (Timer.init 0) "buildA").
  - reflexivity.
  - reflexivity.
  - reflexivity.
  - reflexivity.
  - reflexivity.
  - reflexivity.
  - repeat (apply Forall_cons_2 || apply Forall_nil_2); by intros r0 [= <-].
  - by intros job id.
  - vm_compute. repeat constructor.
Defined.

(** With a table loaded in file-matching mode, a request whose repository
    and branch contain no pipe arms nothing: the handler looks up a key of
    two parts, and every key of the table has three. *)
Theorem handler_inert_under_file_matching (w : world) (g g' : globals)
    (path : string) (reads : list Mapping.read) (tm : Mapping.triggerMapping)
    (query : gmap string (list string)) (repo branch : string)
    (files : list string) (s : Timer.state) :
  Files w path = Some reads → FileMatching g = true →
  Mapping.ParseMappingFile reads true = Done (tm, None) →
  ProcessMappingFile w g path = Done (g', None) →
  ParseGetRequest query = (repo, branch, files, None) →
  pipe_free repo → pipe_free branch →
  handler g' query s = s.
Proof.
  intros Hopen Hfm Hparse Hload Hreq Hrepo Hbranch.
  rewrite (ProcessMappingFile_loaded w g path reads tm Hopen) in Hload
    by by rewrite Hfm.
  injection Hload as <-.
  unfold handler. rewrite Hreq. simpl mapping.
  by rewrite (MappingFacts.filematch_pair_unmapped reads tm repo branch Hparse Hrepo Hbranch).
Qed.

Lemma handler_inert_under_file_matching_witness :
  ∃ g', ProcessMappingFile filematch_world filematch_globals "mapping.csv"
        = Done (g', None) ∧
    mapping g' = Some {["repoA|main|src" := ["buildA"]]} ∧
    handler g' {["repo" := ["repoA"]; "branch" := ["main"]]} (Timer.init 0)
    = Timer.init 0.
Proof.
  eexists. split; [reflexivity |]. split; [reflexivity |].
  eapply (handler_inert_under_file_matching filematch_world filematch_globals _
            "mapping.csv" _ _ {["repo" := ["repoA"]; "branch" := ["main"]]}
            "repoA" "main" [] (Timer.init 0)); reflexivity.
Defined.

(** *** What [run] returns *)

(** [run] returns an error in three cases only: no URL, no token, or a
    mapping file that cannot be opened.  It then has not started to serve.
    In particular a mapping file that opens but does not parse is no error
    for [run]. *)
Theorem run_error_cases (args : list string) (w : world) (g g' : globals)
    (effects : list effect) (err : error) :
  run args w g = Done (g', effects, Some err) →
  (JenkinsURL g = "" ∧ err = errors_New "No JENKINS_URL defined" ∧ effects = []) ∨
  (JenkinsToken g = "" ∧ err = errors_New "No JENKINS_TOKEN defined" ∧ effects = []) ∨
  (Files w (MappingFile g) = None ∧ err = os_PathError (MappingFile g) ∧
   effects = [EffOpen (MappingFile g)]).
Proof.
  unfold run. destruct (String.eqb (JenkinsURL g) "") eqn:EU.
  { intros [= <- <- <-]. left. by apply String.eqb_eq in EU. }
  destruct (String.eqb (JenkinsToken g) "") eqn:ET.
  { intros [= <- <- <-]. right. left. by apply String.eqb_eq in ET. }
  intros E. right. right. revert E.
  set (g1 := if negb (String.eqb (JenkinsMulti g) "") then _ else g).
  assert (MappingFile g1 = MappingFile g) as ->
    by (unfold g1; by destruct (negb _)).
  unfold ProcessMappingFile.
  destruct (Files w (MappingFile g)) as [file |]; simpl.
  - destruct (Mapping.ParseMappingFile file (FileMatching g1)) as [[tm [perr |]] | p];
      simpl; intros [=].
  - by intros [= <- <- <-].
Qed.

(** Without a mapping file: the third case. *)
Lemma run_error_cases_witness :
  run ["./app"] empty_world Trigger.anonymous_globals
  = Done (Trigger.anonymous_globals, [EffOpen "mapping.csv"],
          Some (os_PathError "mapping.csv")) ∧
  ((JenkinsURL Trigger.anonymous_globals = "" ∧
    os_PathError "mapping.csv" = errors_New "No JENKINS_URL defined" ∧
    [EffOpen "mapping.csv"] = []) ∨
   (JenkinsToken Trigger.anonymous_globals = "" ∧
    os_PathError "mapping.csv" = errors_New "No JENKINS_TOKEN defined" ∧
    [EffOpen "mapping.csv"] = []) ∨
   (Files empty_world (MappingFile Trigger.anonymous_globals) = None ∧
    os_PathError "mapping.csv" = os_PathError (MappingFile Trigger.anonymous_globals) ∧
    [EffOpen "mapping.csv"] = [EffOpen (MappingFile Trigger.anonymous_globals)])).
Proof.
  split; [reflexivity |].
  apply (run_error_cases ["./app"] empty_world Trigger.anonymous_globals
           Trigger.anonymous_globals [EffOpen "mapping.csv"]
           (os_PathError "mapping.csv")).
  reflexivity.
Defined.

Lemma run_globals (args : list string) (w : world) (g g' : globals)
    (effects : list effect) :
  run args w g = Done (g', effects, None) →
  JenkinsURL g' = (if String.eqb (JenkinsMulti g) "" then JenkinsURL g
                   else JenkinsURL g +:+ "/job/" +:+ JenkinsMulti g) ∧
  JenkinsUser g' = JenkinsUser g ∧ JenkinsToken g' = JenkinsToken g ∧
  effects = [EffOpen (MappingFile g); EffHandleFunc "/"; EffListenAndServe ":8080"].
Proof.
  unfold run. destruct (String.eqb (JenkinsURL g) ""); [done |].
  destruct (String.eqb (JenkinsToken g) ""); [done |].
  set (g1 := if negb (String.eqb (JenkinsMulti g) "") then _ else g).
  assert (JenkinsURL g1 = (if String.eqb (JenkinsMulti g) "" then JenkinsURL g
                           else JenkinsURL g +:+ "/job/" +:+ JenkinsMulti g) ∧
          JenkinsUser g1 = JenkinsUser g ∧ JenkinsToken g1 = JenkinsToken g ∧
          MappingFile g1 = MappingFile g) as (HU & Hu & Ht & Hm)
    by (unfold g1; by destruct (String.eqb (JenkinsMulti g) "")).
  rewrite Hm. unfold ProcessMappingFile.
  destruct (Files w (MappingFile g)) as [file |]; simpl; [| done].
  destruct (Mapping.ParseMappingFile file (FileMatching g1)) as [[tm [perr |]] | p];
    simpl; intros [= <- <-]; done.
Qed.

Section Dispatch.

Variable validURL : string → bool.
Variable clientDo : Trigger.Request → Trigger.do_result.

(** Once [run] has set up a multibranch project, every job is triggered
    below the project: the request for a job is a POST to the base URL, then
    [/job/] and the project, then [/job/], the job and [/build], with the
    user's basic-auth credentials if there is a user. *)
Theorem run_then_trigger_url (args : list string) (w : world) (g g' : globals)
    (effects : list effect) (job : string) :
  run args w g = Done (g', effects, None) →
  JenkinsMulti g ≠ "" →
  validURL (Trigger.createJobURL (JenkinsURL g +:+ "/job/" +:+ JenkinsMulti g) job)
  = true →
  Trigger.sent (Trigger.triggerJob validURL clientDo g' job)
  = Some {| Trigger.Method := "POST";
            Trigger.URL :=
              Trigger.createJobURL (JenkinsURL g +:+ "/job/" +:+ JenkinsMulti g) job;
            Trigger.BasicAuth :=
              if String.eqb (JenkinsUser g) "" then None
              else Some (JenkinsUser g, JenkinsToken g) |}.
Proof.
  intros Hrun Hmulti Hurl.
  apply run_globals in Hrun as (HU & Hu & Ht & _).
  destruct (String.eqb (JenkinsMulti g) "") eqn:EM;
    [by apply String.eqb_eq in EM |].
  unfold Trigger.triggerJob, Trigger.NewRequest. rewrite HU, Hurl, Hu, Ht.
  destruct (String.eqb (JenkinsUser g) ""); simpl; by destruct (clientDo _).
Qed.

End Dispatch.

Lemma run_then_trigger_url_witness :
  ∃ g' effects,
    run ["./app"] scenario_world multibranch_globals = Done (g', effects, None) ∧
    Trigger.sent (Trigger.triggerJob (λ _, true) (λ _, Trigger.Response 201) g' "buildA")
    = Some {| Trigger.Method := "POST";
              Trigger.URL := "https://jenkins:8443/job/builds/job/buildA/build";
              Trigger.BasicAuth := Some ("triggeruser", "token") |}.
Proof.
  do 2 eexists. split; [reflexivity |].
  eapply (run_then_trigger_url (λ _, true) (λ _, Trigger.Response 201) ["./app"]
            scenario_world multibranch_globals _ _ "buildA");
    [reflexivity | discriminate | reflexivity].
Defined.

(** *** A load installs a whole table or nothing *)

(** Whatever [ProcessMappingFile] returns, the variables are either all as
    before, or the mapping alone was replaced by the table of a parse that
    went through without error; a file that cannot be opened or parsed
    leaves the installed table in place. *)
Theorem ProcessMappingFile_all_or_nothing (w : world) (g g' : globals)
    (path : string) (err : option error) :
  ProcessMappingFile w g path = Done (g', err) →
  (g' = g ∧ (err = None ∨ err = Some (os_PathError path))) ∨
  (∃ reads tm,
     Files w path = Some reads ∧
     Mapping.ParseMappingFile reads (FileMatching g) = Done (tm, None) ∧
     g' = set_mapping (Mapping.mapping tm) g ∧ err = None).
Proof.
  unfold ProcessMappingFile. destruct (Files w path) as [reads |] eqn:Hopen.
  - destruct (Mapping.ParseMappingFile reads (FileMatching g))
      as [[tm [perr |]] | p] eqn:Hparse; simpl.
    + intros [= <- <-]. left. by auto.
    + intros [= <- <-]. right. by exists reads, tm.
    + done.
  - intros [= <- <-]. left. by auto.
Qed.

(** The ragged file against a table already installed: the table stays. *)
Lemma ProcessMappingFile_all_or_nothing_witness :
  let g := set_mapping (Some {["repoA|main" := ["buildA"]]}) Trigger.anonymous_globals in
  (g = g ∧ (@None error = None ∨ @None error = Some (os_PathError "mapping.csv"))) ∨
  (∃ reads tm,
     Files ragged_world "mapping.csv" = Some reads ∧
     Mapping.ParseMappingFile reads (FileMatching g) = Done (tm, None) ∧
     g = set_mapping (Mapping.mapping tm) g ∧ @None error = None).
Proof.
  apply (ProcessMappingFile_all_or_nothing ragged_world
           (set_mapping (Some {["repoA|main" := ["buildA"]]}) Trigger.anonymous_globals)
           _ "mapping.csv" None).
  reflexivity.
Defined.

End AppFacts.
